(** * rosbridge_library.internal.ros_loader

    A shallow embedding of [ros_loader.py], the module of rosbridge that
    turns a type string such as ["std_msgs/msg/String"] into the Python
    class it names and memoises the answer in two module-level dicts.

    Definitions:
    - [PyStr]: the [str] methods the module calls ([split], [join],
      [endswith], slicing, [lower]);
    - [Re]: the fragment of [re] that [camel_to_snake_case] needs;
    - the exceptions, [_splittype] and [_get_hidden_action_subname];
    - [prog]: what the loader does to shared state (locks, dict
      operations, calls of [importlib.import_module] and [getattr]) as a
      tree of operations, and the loader functions written in it;
    - [run], the interpreter of one thread, and [pool_step], the
      interleaving of two.

    Properties:
    - splitting at slashes and the hidden action subname;
    - a resolution in one thread: what is cached, what is retried, what a
      failure leaves behind, which spellings share an entry;
    - two callers resolving the same type string at once.

    Strings are Rocq [string]s.  ROS names are ASCII identifiers, and the
    character classes of the module's regular expression are ASCII ranges;
    [lower] acts on [A-Z] as [str.lower] does on ASCII text. *)

From Stdlib Require Import String Ascii List Bool Arith Lia.
From stdpp Require Import gmap strings.
Import ListNotations.

(* ===================================================================== *)
(** ** Python strings *)
(* ===================================================================== *)

Module PyStr.

(** [s.split(sep)] for a non-empty separator: cut at the non-overlapping
    occurrences of [sep], scanning from the left.  [skip] counts the
    characters of an occurrence that are still to be dropped. *)
Fixpoint split_go (sep : string) (skip : nat) (s : string) : list string :=
  match s with
  | EmptyString => [""]
  | String c t =>
      match skip with
      | S k => split_go sep k t
      | O =>
          if String.prefix sep s
          then "" :: split_go sep (String.length sep - 1) t
          else match split_go sep 0 t with
               | h :: r => String c h :: r
               | [] => [String c ""]
               end
      end
  end.

Definition split (sep s : string) : list string := split_go sep 0 s.

(** Truthiness of a string: [if x] holds for the non-empty ones. *)
Definition truthy (s : string) : bool :=
  match s with EmptyString => false | String _ _ => true end.

(** [sep.join(l)] *)
Definition join (sep : string) (l : list string) : string :=
  String.concat sep l.

(** [l[1:-1]] *)
Definition slice_1_m1 {A} (l : list A) : list A := removelast (tl l).

(** [s.endswith(suf)] *)
Definition endswith (s suf : string) : bool :=
  (String.length suf <=? String.length s) &&
  String.eqb
    (String.substring (String.length s - String.length suf)
                      (String.length suf) s)
    suf.

(** [s[0:-n]] for [n > 0] *)
Definition drop_last (n : nat) (s : string) : string :=
  String.substring 0 (String.length s - n) s.

Definition is_upper (c : ascii) : bool :=
  (65 <=? nat_of_ascii c) && (nat_of_ascii c <=? 90).
Definition is_lower (c : ascii) : bool :=
  (97 <=? nat_of_ascii c) && (nat_of_ascii c <=? 122).
Definition is_digit (c : ascii) : bool :=
  (48 <=? nat_of_ascii c) && (nat_of_ascii c <=? 57).

Definition lower_char (c : ascii) : ascii :=
  if is_upper c then ascii_of_nat (nat_of_ascii c + 32) else c.

(** [s.lower()] *)
Fixpoint lower (s : string) : string :=
  match s with
  | EmptyString => EmptyString
  | String c t => String (lower_char c) (lower t)
  end.

End PyStr.

(* ===================================================================== *)
(** ** Regular expressions *)
(* ===================================================================== *)

(** The pattern of [camel_to_snake_case] uses character classes, a
    look-behind, a look-ahead, the negative look-ahead [(?!^)], sequencing
    and alternation.  [rmatch] lists, in the priority order of a
    backtracking matcher, the ways a pattern matches at a position; a
    position is the text before it (nearest character first) and the text
    after it. *)
Module Re.

Inductive regex : Type :=
| Class (p : ascii -> bool)        (* [...]       *)
| Lookbehind (p : ascii -> bool)   (* (?<=[...])  *)
| Lookahead (p : ascii -> bool)    (* (?=[...])   *)
| NotAtStart                       (* (?!^)       *)
| Seq (r1 r2 : regex)
| Alt (r1 r2 : regex).

Definition position : Type := list ascii * string.

Fixpoint rmatch (r : regex) (pos : position) : list position :=
  match r with
  | Class p =>
      match snd pos with
      | String c t => if p c then [(c :: fst pos, t)] else []
      | EmptyString => []
      end
  | Lookbehind p =>
      match fst pos with
      | c :: _ => if p c then [pos] else []
      | [] => []
      end
  | Lookahead p =>
      match snd pos with
      | String c _ => if p c then [pos] else []
      | EmptyString => []
      end
  | NotAtStart =>
      match fst pos with
      | [] => []
      | _ :: _ => [pos]
      end
  | Seq r1 r2 => flat_map (rmatch r2) (rmatch r1 pos)
  | Alt r1 r2 => rmatch r1 pos ++ rmatch r2 pos
  end.

(** Length of the first match at a position, if any. *)
Definition match_len (r : regex) (pos : position) : option nat :=
  match rmatch r pos with
  | (_, rest) :: _ => Some (String.length (snd pos) - String.length rest)
  | [] => None
  end.

(** [re.sub(r, repl, s)] where [repl] receives the matched text, for
    patterns whose matches are never empty.  The scan goes left to right;
    after a match of length [n] the next [n - 1] characters are skipped,
    so matches do not overlap.  An empty match is treated as none. *)
Fixpoint sub_go (r : regex) (repl : string -> string)
         (before : list ascii) (skip : nat) (s : string) : string :=
  match s with
  | EmptyString => EmptyString
  | String c t =>
      match skip with
      | S k => sub_go r repl (c :: before) k t
      | O =>
          match match_len r (before, s) with
          | Some (S n) =>
              String.append (repl (String.substring 0 (S n) s))
                            (sub_go r repl (c :: before) n t)
          | _ => String c (sub_go r repl (c :: before) 0 t)
          end
      end
  end.

Definition sub (r : regex) (repl : string -> string) (s : string) : string :=
  sub_go r repl [] 0 s.

End Re.

(* ===================================================================== *)
(** ** Exceptions and the pure helpers *)
(* ===================================================================== *)

(** The four exception classes of the module, with the constructor
    arguments their messages are built from, and the two built-in errors
    the dict and lock operations can raise. *)
Inductive exn : Type :=
| InvalidTypeStringException (typestring : string)
| InvalidModuleException (modname subname cause : string)
| InvalidActionInterfaceException (classname : string)
| InvalidClassException (modname subname classname cause : string)
| KeyError (key : string)
| RuntimeError.

Inductive result (A : Type) : Type :=
| Ok (a : A)
| Err (e : exn).
Arguments Ok {A} a.
Arguments Err {A} e.

(** [[x for x in typestring.split("/") if x]] *)
Definition splits (typestring : string) : list string :=
  List.filter PyStr.truthy (PyStr.split "/" typestring).

Definition _splittype (typestring : string) : result (string * string) :=
  match splits typestring with
  | [s0; _; s2] => Ok (s0, s2)
  | [s0; s1] => Ok (s0, s1)
  | [s0; s1; _; s3] =>
      if String.eqb s1 "action" then Ok (s0, s3)
      else Err (InvalidTypeStringException typestring)
  | _ => Err (InvalidTypeStringException typestring)
  end.

Definition autogenerated_suffixes : list string := ["_SendGoal"; "_GetResult"].

(** The [for] loop of [remove_autogenerated_suffixes] over a list of
    suffixes. *)
Fixpoint remove_suffixes (sufs : list string) (classname : string)
  : result string :=
  match sufs with
  | [] => Err (InvalidActionInterfaceException classname)
  | s :: rest =>
      if PyStr.endswith classname s
      then Ok (PyStr.drop_last (String.length s) classname)
      else remove_suffixes rest classname
  end.

Definition remove_autogenerated_suffixes (classname : string) : result string :=
  remove_suffixes autogenerated_suffixes classname.

(** [((?<=[a-z0-9])[A-Z]|(?!^)[A-Z](?=[a-z]))] *)
Definition camel_regex : Re.regex :=
  Re.Alt
    (Re.Seq (Re.Lookbehind (fun c => PyStr.is_lower c || PyStr.is_digit c))
            (Re.Class PyStr.is_upper))
    (Re.Seq Re.NotAtStart
            (Re.Seq (Re.Class PyStr.is_upper) (Re.Lookahead PyStr.is_lower))).

(** [re.sub(..., r"_\1", camel).lower()]; group 1 is the whole match. *)
Definition camel_to_snake_case (camel : string) : string :=
  PyStr.lower (Re.sub camel_regex (fun g1 => String.append "_" g1) camel).

(** Camel case to snake case as the interface documents it: an underscore
    goes before an uppercase letter that follows a lowercase letter or a
    digit, or that precedes a lowercase letter and is not the first
    character; then everything is lowercased.  [prev] is the character
    before the current one, if any. *)
Fixpoint underscored (prev : option ascii) (s : string) : string :=
  match s with
  | EmptyString => EmptyString
  | String c t =>
      let preceded :=
        match prev with
        | Some p => PyStr.is_lower p || PyStr.is_digit p
        | None => false
        end in
      let followed :=
        match t with
        | String n _ => PyStr.is_lower n
        | EmptyString => false
        end in
      let not_first :=
        match prev with Some _ => true | None => false end in
      if PyStr.is_upper c && (preceded || (followed && not_first))
      then String "_" (String c (underscored (Some c) t))
      else String c (underscored (Some c) t)
  end.

Definition camel_to_snake_spec (camel : string) : string :=
  PyStr.lower (underscored None camel).

(** No character of the string is an uppercase ASCII letter. *)
Fixpoint no_upper (s : string) : bool :=
  match s with
  | EmptyString => true
  | String c t => negb (PyStr.is_upper c) && no_upper t
  end.

Definition _get_hidden_action_subname (subname classname : string)
  : result string :=
  if length (PyStr.split "._" subname) =? 2 then Ok subname
  else
    match remove_autogenerated_suffixes classname with
    | Err e => Err e
    | Ok base =>
        Ok (String.append subname
              (String.append "._" (camel_to_snake_case base)))
    end.

(** A segment of a type string: non-empty and without a slash. *)
Fixpoint slash_free (s : string) : bool :=
  match s with
  | EmptyString => true
  | String c t => negb (Ascii.eqb c "/") && slash_free t
  end.

Definition is_segment (s : string) : bool := PyStr.truthy s && slash_free s.

(* ===================================================================== *)
(** ** Effects: locks, dicts and the import system *)
(* ===================================================================== *)

(** What [importlib.import_module] and [getattr] answer: the object, or
    the text of the exception they raised ([str(exc)], which is all the
    module keeps of it). *)
Inductive provided (A : Type) : Type :=
| Found (a : A)
| Failed (cause : string).
Arguments Found {A} a.
Arguments Failed {A} cause.

(** The module-level dicts [_loaded_msgs], [_loaded_srvs] and the
    module-level locks [_msgs_lock], [_srvs_lock].  The functions receive
    them as arguments, by reference. *)
Inductive cache_ref : Type := loaded_msgs_ref | loaded_srvs_ref.
Inductive lock_ref : Type := msgs_lock_ref | srvs_lock_ref.

#[global] Instance cache_ref_eq_dec : EqDecision cache_ref.
Proof. solve_decision. Defined.

#[global] Instance lock_ref_eq_dec : EqDecision lock_ref.
Proof. solve_decision. Defined.

Section Loader.

(** Module objects and the classes found in them are opaque.  A class is
    never [None]: the loader's [is not None] tests separate a cached
    class from a miss. *)
Context {PyModule Handle : Type}.

(** A program is a tree of the operations it performs on shared state.
    Everything between two operations is pure. *)
Inductive prog (A : Type) : Type :=
| Ret (a : A)
| Raise (e : exn)
| Acquire (l : lock_ref) (k : prog A)                   (* l.acquire()  *)
| Release (l : lock_ref) (k : prog A)                   (* l.release()  *)
| DictIn (c : cache_ref) (key : string) (k : bool -> prog A)   (* key in c *)
| DictGet (c : cache_ref) (key : string) (k : Handle -> prog A) (* c[key]  *)
| DictSet (c : cache_ref) (key : string) (v : Handle) (k : prog A)
                                                        (* c[key] = v   *)
| ImportModule (name : string) (k : provided PyModule -> prog A)
| GetAttr (m : PyModule) (name : string) (k : provided Handle -> prog A).

Arguments Ret {A} a.
Arguments Raise {A} e.
Arguments Acquire {A} l k.
Arguments Release {A} l k.
Arguments DictIn {A} c key k.
Arguments DictGet {A} c key k.
Arguments DictSet {A} c key v k.
Arguments ImportModule {A} name k.
Arguments GetAttr {A} m name k.

Fixpoint bind {A B} (p : prog A) (f : A -> prog B) : prog B :=
  match p with
  | Ret a => f a
  | Raise e => Raise e
  | Acquire l k => Acquire l (bind k f)
  | Release l k => Release l (bind k f)
  | DictIn c key k => DictIn c key (fun b => bind (k b) f)
  | DictGet c key k => DictGet c key (fun v => bind (k v) f)
  | DictSet c key v k => DictSet c key v (bind k f)
  | ImportModule name k => ImportModule name (fun r => bind (k r) f)
  | GetAttr m name k => GetAttr m name (fun r => bind (k r) f)
  end.

(** [try: p  except <catches>: handler] *)
Fixpoint try_except {A} (p : prog A) (catches : exn -> bool)
         (handler : prog A) : prog A :=
  match p with
  | Ret a => Ret a
  | Raise e => if catches e then handler else Raise e
  | Acquire l k => Acquire l (try_except k catches handler)
  | Release l k => Release l (try_except k catches handler)
  | DictIn c key k => DictIn c key (fun b => try_except (k b) catches handler)
  | DictGet c key k => DictGet c key (fun v => try_except (k v) catches handler)
  | DictSet c key v k => DictSet c key v (try_except k catches handler)
  | ImportModule name k =>
      ImportModule name (fun r => try_except (k r) catches handler)
  | GetAttr m name k =>
      GetAttr m name (fun r => try_except (k r) catches handler)
  end.

(** A pure computation that returns or raises. *)
Definition lift {A} (r : result A) : prog A :=
  match r with Ok a => Ret a | Err e => Raise e end.

Notation "'let*' x ':=' p 'in' k" := (bind p (fun x => k))
  (at level 10, x name, p at level 100, k at level 200).

(* ------------------------------------------------------------------- *)
(** *** The loader *)

Definition _add_to_cache (cache : cache_ref) (lock : lock_ref)
           (key : string) (value : Handle) : prog unit :=
  Acquire lock (DictSet cache key value (Release lock (Ret tt))).

Definition _get_from_cache (cache : cache_ref) (lock : lock_ref)
           (key : string) : prog (option Handle) :=
  Acquire lock
    (DictIn cache key (fun present =>
       if present
       then DictGet cache key (fun ret => Release lock (Ret (Some ret)))
       else Release lock (Ret None))).

Definition _load_class (modname subname classname : string) : prog Handle :=
  ImportModule (modname +:+ "." +:+ subname) (fun r =>
    match r with
    | Failed cause => Raise (InvalidModuleException modname subname cause)
    | Found pypkg =>
        GetAttr pypkg classname (fun r =>
          match r with
          | Failed cause =>
              Raise (InvalidClassException modname subname classname cause)
          | Found cls => Ret cls
          end)
    end).

Definition _get_class (typestring subname : string)
           (cache : cache_ref) (lock : lock_ref) : prog Handle :=
  let* cls := _get_from_cache cache lock typestring in
  match cls with
  | Some cls => Ret cls
  | None =>
      let* mc := lift (_splittype typestring) in
      let modname := fst mc in
      let classname := snd mc in
      let norm_typestring := modname +:+ "/" +:+ classname in
      let* cls := _get_from_cache cache lock norm_typestring in
      match cls with
      | Some cls => Ret cls
      | None =>
          let* cls := _load_class modname subname classname in
          let* _ := _add_to_cache cache lock typestring cls in
          let* _ := _add_to_cache cache lock norm_typestring cls in
          Ret cls
      end
  end.

(** [except (InvalidModuleException, InvalidClassException)] *)
Definition module_or_class_error (e : exn) : bool :=
  match e with
  | InvalidModuleException _ _ _ | InvalidClassException _ _ _ _ => true
  | _ => false
  end.

(** What both [_get_msg_class] and [_get_srv_class] compute first: the
    dotted middle segments, or the ROS1 default when there are none. *)
Definition inferred_subname (default typestring : string) : string :=
  let splits := splits typestring in
  if 2 <? length splits
  then PyStr.join "." (PyStr.slice_1_m1 splits)
  else default.

Definition _get_msg_class (typestring : string) : prog Handle :=
  try_except
    (let subname := inferred_subname "msg" typestring in
     _get_class typestring subname loaded_msgs_ref msgs_lock_ref)
    module_or_class_error
    (_get_class typestring "msg" loaded_msgs_ref msgs_lock_ref).

(** The subname a service type string asks for; the hidden action
    submodule is worked out when the second segment is ["action"]. *)
Definition srv_subname (typestring : string) : result string :=
  let splits := splits typestring in
  if 2 <? length splits
  then
    let subname := PyStr.join "." (PyStr.slice_1_m1 splits) in
    if String.eqb (nth 1 splits "") "action"
    then _get_hidden_action_subname subname (List.last splits "")
    else Ok subname
  else Ok "srv".

Definition _get_srv_class (typestring : string) : prog Handle :=
  try_except
    (let* subname := lift (srv_subname typestring) in
     _get_class typestring subname loaded_srvs_ref srvs_lock_ref)
    module_or_class_error
    (_get_class typestring "srv" loaded_srvs_ref srvs_lock_ref).

Definition get_message_class (typestring : string) : prog Handle :=
  _get_msg_class typestring.

Definition get_service_class (typestring : string) : prog Handle :=
  _get_srv_class typestring.

(** The two entry points side by side, indexed by the dict they fill. *)
Definition lock_for (c : cache_ref) : lock_ref :=
  match c with
  | loaded_msgs_ref => msgs_lock_ref
  | loaded_srvs_ref => srvs_lock_ref
  end.

Definition default_subname (c : cache_ref) : string :=
  match c with
  | loaded_msgs_ref => "msg"
  | loaded_srvs_ref => "srv"
  end.

Definition first_subname (c : cache_ref) (typestring : string)
  : result string :=
  match c with
  | loaded_msgs_ref => Ok (inferred_subname "msg" typestring)
  | loaded_srvs_ref => srv_subname typestring
  end.

Definition get_class_for (c : cache_ref) (typestring : string)
  : prog Handle :=
  match c with
  | loaded_msgs_ref => get_message_class typestring
  | loaded_srvs_ref => get_service_class typestring
  end.

(** The body of the [try] block of either entry point. *)
Definition first_attempt (c : cache_ref) (typestring : string)
  : prog Handle :=
  let* subname := lift (first_subname c typestring) in
  _get_class typestring subname c (lock_for c).

(** The body of the [except] block of either entry point. *)
Definition retry (c : cache_ref) (typestring : string) : prog Handle :=
  _get_class typestring (default_subname c) c (lock_for c).

(* ------------------------------------------------------------------- *)
(** *** Shared state and the sequential interpreter *)

Inductive provider_call : Type :=
| CallImport (name : string)
| CallGetattr (m : PyModule) (name : string).

(** The two dicts, the two locks ([true] when locked) and, for
    observation only, the calls made to the import system, latest first. *)
Record state : Type := mkState {
  _loaded_msgs : gmap string Handle;
  _loaded_srvs : gmap string Handle;
  _msgs_lock : bool;
  _srvs_lock : bool;
  calls : list provider_call
}.

(** How many of the logged calls are imports. *)
Definition imports (log : list provider_call) : nat :=
  length (List.filter
            (fun call =>
               match call with
               | CallImport _ => true
               | CallGetattr _ _ => false
               end) log).

Definition initial_state : state :=
  mkState ∅ ∅ false false [].

Definition cache_of (c : cache_ref) (st : state) : gmap string Handle :=
  match c with
  | loaded_msgs_ref => _loaded_msgs st
  | loaded_srvs_ref => _loaded_srvs st
  end.

Definition lock_of (l : lock_ref) (st : state) : bool :=
  match l with
  | msgs_lock_ref => _msgs_lock st
  | srvs_lock_ref => _srvs_lock st
  end.

Definition set_lock (l : lock_ref) (b : bool) (st : state) : state :=
  match l with
  | msgs_lock_ref =>
      mkState (_loaded_msgs st) (_loaded_srvs st) b (_srvs_lock st) (calls st)
  | srvs_lock_ref =>
      mkState (_loaded_msgs st) (_loaded_srvs st) (_msgs_lock st) b (calls st)
  end.

Definition set_item (c : cache_ref) (key : string) (v : Handle)
           (st : state) : state :=
  match c with
  | loaded_msgs_ref =>
      mkState (<[key:=v]> (_loaded_msgs st)) (_loaded_srvs st)
              (_msgs_lock st) (_srvs_lock st) (calls st)
  | loaded_srvs_ref =>
      mkState (_loaded_msgs st) (<[key:=v]> (_loaded_srvs st))
              (_msgs_lock st) (_srvs_lock st) (calls st)
  end.

Definition record_call (c : provider_call) (st : state) : state :=
  mkState (_loaded_msgs st) (_loaded_srvs st) (_msgs_lock st) (_srvs_lock st)
          (c :: calls st).

(** The import system: [importlib.import_module] on a dotted name and
    [getattr] on a module.  Both are functions of their arguments: a
    module that was importable stays so and exposes the same classes. *)
Variable import_module : string -> provided PyModule.
Variable getattr : PyModule -> string -> provided Handle.

Inductive outcome (A : Type) : Type :=
| Returned (a : A)
| Raised (e : exn)
| Blocked.                 (* waiting for a lock that nobody releases *)
Arguments Returned {A} a.
Arguments Raised {A} e.
Arguments Blocked {A}.

(** Two outcomes that differ at most in the type string quoted by an
    [InvalidTypeStringException]. *)
Inductive same_outcome {A : Type} : outcome A -> outcome A -> Prop :=
| same_returned a : same_outcome (Returned a) (Returned a)
| same_raised e : same_outcome (Raised e) (Raised e)
| same_invalid typestring1 typestring2 :
    same_outcome (Raised (InvalidTypeStringException typestring1))
                 (Raised (InvalidTypeStringException typestring2))
| same_blocked : same_outcome Blocked Blocked.

(** One operation of one thread.  [None]: the thread has finished, or it
    waits for a lock.  Releasing an unlocked lock and reading a missing
    key raise the built-in errors; no handler of the module catches them. *)
Definition thread_step {A} (p : prog A) (st : state)
  : option (prog A * state) :=
  match p with
  | Ret _ | Raise _ => None
  | Acquire l k =>
      if lock_of l st then None else Some (k, set_lock l true st)
  | Release l k =>
      if lock_of l st then Some (k, set_lock l false st)
      else Some (Raise RuntimeError, st)
  | DictIn c key k =>
      Some (k (bool_decide (is_Some (cache_of c st !! key))), st)
  | DictGet c key k =>
      match cache_of c st !! key with
      | Some v => Some (k v, st)
      | None => Some (Raise (KeyError key), st)
      end
  | DictSet c key v k => Some (k, set_item c key v st)
  | ImportModule name k =>
      Some (k (import_module name), record_call (CallImport name) st)
  | GetAttr m name k =>
      Some (k (getattr m name), record_call (CallGetattr m name) st)
  end.

(** A call made by a single thread, run to its end. *)
Fixpoint run {A} (p : prog A) (st : state) : outcome A * state :=
  match p with
  | Ret a => (Returned a, st)
  | Raise e => (Raised e, st)
  | Acquire l k =>
      if lock_of l st then (Blocked, st) else run k (set_lock l true st)
  | Release l k =>
      if lock_of l st then run k (set_lock l false st)
      else (Raised RuntimeError, st)
  | DictIn c key k =>
      run (k (bool_decide (is_Some (cache_of c st !! key)))) st
  | DictGet c key k =>
      match cache_of c st !! key with
      | Some v => run (k v) st
      | None => (Raised (KeyError key), st)
      end
  | DictSet c key v k => run k (set_item c key v st)
  | ImportModule name k =>
      run (k (import_module name)) (record_call (CallImport name) st)
  | GetAttr m name k =>
      run (k (getattr m name)) (record_call (CallGetattr m name) st)
  end.

(** [_load_class] followed by the two [_add_to_cache] calls, as a
    function of the state. *)
Definition load_then_cache (typestring modname subname classname : string)
           (c : cache_ref) (st : state) : outcome Handle * state :=
  let name := modname +:+ "." +:+ subname in
  let st1 := record_call (CallImport name) st in
  match import_module name with
  | Failed cause => (Raised (InvalidModuleException modname subname cause), st1)
  | Found pypkg =>
      let st2 := record_call (CallGetattr pypkg classname) st1 in
      match getattr pypkg classname with
      | Failed cause =>
          (Raised (InvalidClassException modname subname classname cause), st2)
      | Found cls =>
          (Returned cls,
           set_item c (modname +:+ "/" +:+ classname) cls
             (set_item c typestring cls st2))
      end
  end.

(** What [_load_class] answers, the call log left aside. *)
Definition load_result (modname subname classname : string) : result Handle :=
  match import_module (modname +:+ "." +:+ subname) with
  | Failed cause => Err (InvalidModuleException modname subname cause)
  | Found pypkg =>
      match getattr pypkg classname with
      | Failed cause =>
          Err (InvalidClassException modname subname classname cause)
      | Found cls => Ok cls
      end
  end.

(** Every key of a dict filled by the loader is a type string that
    [_splittype] accepts, and the normalised type string is bound to the
    same class. *)
Definition cache_inv (m : gmap string Handle) : Prop :=
  forall key cls,
    m !! key = Some cls ->
    exists modname classname,
      _splittype key = Ok (modname, classname) /\
      m !! (modname +:+ "/" +:+ classname) = Some cls.

Definition state_inv (st : state) : Prop :=
  _msgs_lock st = false /\ _srvs_lock st = false /\
  cache_inv (_loaded_msgs st) /\ cache_inv (_loaded_srvs st).

(** The states a single-threaded process can be in between two calls of
    the public functions: the dicts start empty and only the loader
    writes them. *)
Inductive reachable : state -> Prop :=
| reachable_init : reachable initial_state
| reachable_msg typestring st :
    reachable st ->
    reachable (snd (run (get_message_class typestring) st))
| reachable_srv typestring st :
    reachable st ->
    reachable (snd (run (get_service_class typestring) st)).

(* ------------------------------------------------------------------- *)
(** *** Two callers at once *)

(** Two threads run one call each on the shared state.  A step of the pool
    is one operation of one of the two threads: single dict operations are
    atomic, everything else may interleave; a thread at [Acquire] of a
    taken lock cannot move. *)
Definition pool : Type := prog Handle * prog Handle.

Inductive pool_step : pool * state -> pool * state -> Prop :=
| step_first p1 p1' p2 st st' :
    thread_step p1 st = Some (p1', st') ->
    pool_step ((p1, p2), st) ((p1', p2), st')
| step_second p1 p2 p2' st st' :
    thread_step p2 st = Some (p2', st') ->
    pool_step ((p1, p2), st) ((p1, p2'), st').

(** The pool under a given schedule: [true] lets the first caller do its
    next operation, [false] the second; a caller that cannot move skips
    its turn. *)
Fixpoint run_schedule (schedule : list bool) (cfg : pool * state)
  : pool * state :=
  match schedule with
  | [] => cfg
  | turn :: rest =>
      let p1 := fst (fst cfg) in
      let p2 := snd (fst cfg) in
      let st := snd cfg in
      if turn
      then match thread_step p1 st with
           | Some (p1', st') => run_schedule rest ((p1', p2), st')
           | None => run_schedule rest cfg
           end
      else match thread_step p2 st with
           | Some (p2', st') => run_schedule rest ((p1, p2'), st')
           | None => run_schedule rest cfg
           end
  end.

Definition finished {A} (p : prog A) : Prop :=
  match p with
  | Ret _ | Raise _ => True
  | _ => False
  end.

(** The programs a program can continue as. *)
Inductive child {A} : prog A -> prog A -> Prop :=
| child_acquire l k : child k (Acquire l k)
| child_release l k : child k (Release l k)
| child_dict_in c key k b : child (k b) (DictIn c key k)
| child_dict_get c key k v : child (k v) (DictGet c key k)
| child_dict_set c key v k : child k (DictSet c key v k)
| child_import name k r : child (k r) (ImportModule name k)
| child_getattr m name k r : child (k r) (GetAttr m name k).

(** Where a thread stands with respect to the locks: it holds none, it has
    just taken one, it has tested a key under it, or it has done its one
    read or write and has only the release left. *)
Inductive lock_phase : Type :=
| Unlocked
| Fresh (l : lock_ref)
| Tested (l : lock_ref) (c : cache_ref) (key : string)
| Used (l : lock_ref).

(** A program keeps the lock discipline when every dict operation happens
    under the lock of its dict, a lock is held for one lookup ([in], then
    the read of the same key if it is there) or one store, and imports,
    [getattr], returns and raises happen with no lock held. *)
Fixpoint lock_scoped {A} (ph : lock_phase) (p : prog A) : Prop :=
  match p with
  | Ret _ | Raise _ => ph = Unlocked
  | Acquire l k => ph = Unlocked /\ lock_scoped (Fresh l) k
  | Release l k => ph = Used l /\ lock_scoped Unlocked k
  | DictIn c key k =>
      ph = Fresh (lock_for c) /\
      lock_scoped (Tested (lock_for c) c key) (k true) /\
      lock_scoped (Used (lock_for c)) (k false)
  | DictGet c key k =>
      ph = Tested (lock_for c) c key /\
      forall v, lock_scoped (Used (lock_for c)) (k v)
  | DictSet c key v k =>
      ph = Fresh (lock_for c) /\ lock_scoped (Used (lock_for c)) k
  | ImportModule name k =>
      ph = Unlocked /\ forall r, lock_scoped Unlocked (k r)
  | GetAttr m name k =>
      ph = Unlocked /\ forall r, lock_scoped Unlocked (k r)
  end.

Section Interference.

(** The scene: callers resolve [typestring] in dict [c]; [norm] is its
    normalised form and [cls] the class the import system has for it. *)
Variable c : cache_ref.
Variables typestring norm : string.
Variable cls : Handle.

(** What every caller leaves true of the dict however the others move:
    the two keys are bound to [cls] if at all, and [norm] is bound only
    after [typestring]. *)
Definition good (st : state) : Prop :=
  (forall v, cache_of c st !! typestring = Some v -> v = cls) /\
  (forall v, cache_of c st !! norm = Some v -> v = cls) /\
  (is_Some (cache_of c st !! norm) -> is_Some (cache_of c st !! typestring)).

(** A later state: [good], and nothing has been removed from the dict. *)
Definition future (st st' : state) : Prop :=
  good st' /\
  forall key v, cache_of c st !! key = Some v -> cache_of c st' !! key = Some v.

(** A precondition that stays true while the other caller moves.  [held]
    tells whether this thread holds the lock of [c], [owes] whether it has
    stored [typestring] and not yet [norm].  [Q] and [E] are what must hold
    when the program returns or raises. *)
Fixpoint stable_wp {A} (p : prog A) (held owes : bool)
         (Q : A -> bool -> bool -> state -> Prop)
         (E : exn -> bool -> bool -> state -> Prop)
         (st : state) : Prop :=
  match p with
  | Ret a => Q a held owes st
  | Raise e => E e held owes st
  | Acquire l k =>
      l = lock_for c /\ held = false /\
      forall st', future st st' -> stable_wp k true owes Q E st'
  | Release l k =>
      l = lock_for c /\ held = true /\
      forall st', future st st' -> stable_wp k false owes Q E st'
  | DictIn c' key k =>
      c' = c /\ held = true /\
      forall st', future st st' ->
        stable_wp (k (bool_decide (is_Some (cache_of c st' !! key))))
                  held owes Q E st'
  | DictGet c' key k =>
      c' = c /\ held = true /\
      exists v, cache_of c st !! key = Some v /\
        forall st', future st st' -> stable_wp (k v) held owes Q E st'
  | DictSet c' key v k =>
      c' = c /\ held = true /\ v = cls /\
      ((key = typestring /\ owes = false /\
        forall st', future st st' ->
          cache_of c st' !! typestring = Some cls ->
          stable_wp k held true Q E st') \/
       (key = norm /\ owes = true /\
        cache_of c st !! typestring = Some cls /\
        forall st', future st st' ->
          cache_of c st' !! norm = Some cls ->
          stable_wp k held false Q E st'))
  | ImportModule name k =>
      held = false /\
      forall st', future st st' ->
        stable_wp (k (import_module name)) held owes Q E st'
  | GetAttr m name k =>
      held = false /\
      forall st', future st st' ->
        stable_wp (k (getattr m name)) held owes Q E st'
  end.

(** A caller is done when it returns [cls], holds no lock, owes no store
    and [typestring] is bound to [cls]; it never raises. *)
Definition returns_cls (a : Handle) (held owes : bool) (st : state) : Prop :=
  a = cls /\ held = false /\ owes = false /\
  cache_of c st !! typestring = Some cls.

Definition never_raises (e : exn) (held owes : bool) (st : state) : Prop :=
  False.

(** The invariant of two callers. *)
Definition pool_inv (cfg : pool * state) : Prop :=
  let st := snd cfg in
  exists h1 o1 h2 o2,
    stable_wp (fst (fst cfg)) h1 o1 returns_cls never_raises st /\
    stable_wp (snd (fst cfg)) h2 o2 returns_cls never_raises st /\
    lock_of (lock_for c) st = h1 || h2 /\
    h1 && h2 = false /\
    good st /\
    (is_Some (cache_of c st !! typestring) ->
     is_Some (cache_of c st !! norm) \/ o1 = true \/ o2 = true).

End Interference.

(* ------------------------------------------------------------------- *)
(** *** Any two calls at once *)

(** The exceptions the module defines, as opposed to the built-in errors
    of a dict read or a lock release gone wrong. *)
Definition module_exception (e : exn) : bool :=
  match e with
  | KeyError _ | RuntimeError => false
  | _ => true
  end.

(** Every [raise] written in the program raises an exception that
    satisfies [P]. *)
Fixpoint raises_only {A} (P : exn -> bool) (p : prog A) : Prop :=
  match p with
  | Ret _ => True
  | Raise e => P e = true
  | Acquire _ k | Release _ k | DictSet _ _ _ k => raises_only P k
  | DictIn _ _ k => forall b, raises_only P (k b)
  | DictGet _ _ k => forall v, raises_only P (k v)
  | ImportModule _ k => forall r, raises_only P (k r)
  | GetAttr _ _ k => forall r, raises_only P (k r)
  end.

(** Whether a thread in phase [ph] holds lock [l]. *)
Definition holds (ph : lock_phase) (l : lock_ref) : bool :=
  match ph with
  | Unlocked => false
  | Fresh l' | Tested l' _ _ | Used l' => bool_decide (l' = l)
  end.

(** A thread that has found a key under the lock will find it when it
    reads it. *)
Definition tested_present (ph : lock_phase) (st : state) : Prop :=
  match ph with
  | Tested _ c key => is_Some (cache_of c st !! key)
  | _ => True
  end.

(** The invariant of any two callers that keep the lock discipline: a
    lock is taken exactly when one of them holds it, never both. *)
Definition locks_inv (cfg : pool * state) : Prop :=
  let st := snd cfg in
  exists ph1 ph2,
    lock_scoped ph1 (fst (fst cfg)) /\
    lock_scoped ph2 (snd (fst cfg)) /\
    raises_only module_exception (fst (fst cfg)) /\
    raises_only module_exception (snd (fst cfg)) /\
    (forall l, lock_of l st = holds ph1 l || holds ph2 l) /\
    (forall l, holds ph1 l && holds ph2 l = false) /\
    tested_present ph1 st /\ tested_present ph2 st.

(** The import system has [cls] for the type string [key] under some
    subname. *)
Definition provided_for (key : string) (cls : Handle) : Prop :=
  exists modname classname subname,
    _splittype key = Ok (modname, classname) /\
    load_result modname subname classname = Ok cls.

End Loader.

Arguments prog : clear implicits.
Arguments state : clear implicits.
Arguments provider_call : clear implicits.
Arguments Ret {PyModule Handle A} a.
Arguments Raise {PyModule Handle A} e.
Arguments Acquire {PyModule Handle A} l k.
Arguments Release {PyModule Handle A} l k.
Arguments DictIn {PyModule Handle A} c key k.
Arguments DictGet {PyModule Handle A} c key k.
Arguments DictSet {PyModule Handle A} c key v k.
Arguments ImportModule {PyModule Handle A} name k.
Arguments GetAttr {PyModule Handle A} m name k.
Arguments Returned {A} a.
Arguments Raised {A} e.
Arguments Blocked {A}.
Arguments CallImport {PyModule} name.
Arguments CallGetattr {PyModule} m name.

(* ===================================================================== *)
(** ** Instances *)
(* ===================================================================== *)

Section Instances.

Context {PyModule Handle Instance : Type}.
Variable import_module : string -> provided PyModule.
Variable getattr : PyModule -> string -> provided Handle.

(** The calls [cls()], [cls.Request()] and [cls.Response()]: the object
    built, or the text of the exception raised by the attribute lookup or
    by the constructor.  They do not touch the loader's dicts or locks. *)
Variable construct : Handle -> provided Instance.
Variable request_of : Handle -> provided Instance.
Variable response_of : Handle -> provided Instance.

Inductive instance_outcome : Type :=
| Built (i : Instance)
| LoaderRaised (e : exn)        (* raised by get_message/service_class *)
| CallRaised (cause : string)   (* raised by the call on the class     *)
| Waiting.                      (* blocked on a lock                   *)

(** [cls = get_..._class(typestring); return make(cls)] *)
Definition instantiate (make : Handle -> provided Instance)
           (r : outcome Handle * state PyModule Handle)
  : instance_outcome * state PyModule Handle :=
  match r with
  | (Returned cls, st) =>
      (match make cls with
       | Found i => Built i
       | Failed cause => CallRaised cause
       end, st)
  | (Raised e, st) => (LoaderRaised e, st)
  | (Blocked, st) => (Waiting, st)
  end.

Definition get_message_instance (typestring : string)
           (st : state PyModule Handle) :=
  instantiate construct
              (run import_module getattr (get_message_class typestring) st).

Definition get_service_request_instance (typestring : string)
           (st : state PyModule Handle) :=
  instantiate request_of
              (run import_module getattr (get_service_class typestring) st).

Definition get_service_response_instance (typestring : string)
           (st : state PyModule Handle) :=
  instantiate response_of
              (run import_module getattr (get_service_class typestring) st).

End Instances.

Arguments Built {Instance} i.
Arguments LoaderRaised {Instance} e.
Arguments CallRaised {Instance} cause.
Arguments Waiting {Instance}.

(** A stand-in for the import system, for running the loader on examples:
    package [pkg] has the submodules [msg], [srv] and the hidden
    [action._foo]; modules are numbered and a class is named by a number
    that tells which module it came from. *)
Definition test_import (name : string) : provided nat :=
  if String.eqb name "pkg.msg" then Found 1
  else if String.eqb name "pkg.srv" then Found 2
  else if String.eqb name "pkg.action._foo" then Found 3
  else Failed "ModuleNotFoundError".

Definition test_getattr (m : nat) (name : string) : provided nat :=
  if String.eqb name "Cls" then Found (10 + m)
  else if String.eqb name "Foo_SendGoal" then Found (20 + m)
  else Failed "AttributeError".

(** Stand-ins for the calls on a class: every class can be built; only
    the class of module [pkg.srv] has [Request] and [Response]. *)
Definition test_construct (cls : nat) : provided nat := Found (100 + cls).

Definition test_request (cls : nat) : provided nat :=
  if cls =? 12 then Found 212 else Failed "AttributeError".

Definition test_response (cls : nat) : provided nat :=
  if cls =? 12 then Found 312 else Failed "AttributeError".

(** States of the stand-in process: after resolving ["pkg/Cls"] and after
    resolving ["pkg/msg/Cls"], each as the first message of a fresh
    process. *)
Definition after_pkg_cls : state nat nat :=
  snd (run test_import test_getattr (get_message_class "pkg/Cls") initial_state).

Definition after_pkg_msg_cls : state nat nat :=
  snd (run test_import test_getattr (get_message_class "pkg/msg/Cls")
           initial_state).

(* ===================================================================== *)
(** ** Facts about splitting at slashes *)
(* ===================================================================== *)

Example split_examples :
  PyStr.split "/" "a//b/" = ["a"; ""; "b"; ""] /\
  PyStr.split "._" "action._fib" = ["action"; "fib"] /\
  splits "/pkg//msg/Cls/" = ["pkg"; "msg"; "Cls"].
Proof. repeat split; reflexivity. Qed.

Example camel_examples :
  camel_to_snake_case "NavigateToPose" = "navigate_to_pose" /\
  camel_to_snake_case "HTTPServer2Go" = "http_server2_go" /\
  _get_hidden_action_subname "action" "NavigateToPose_SendGoal"
    = Ok "action._navigate_to_pose" /\
  _get_hidden_action_subname "action" "Fibonacci"
    = Err (InvalidActionInterfaceException "Fibonacci").
Proof. repeat split; reflexivity. Qed.

Section SplitFacts.

Lemma app_cons c (a b : string) : String c a +:+ b = String c (a +:+ b).
Proof. reflexivity. Qed.

Lemma app_empty (b : string) : "" +:+ b = b.
Proof. reflexivity. Qed.

Lemma split_go_cons sep skip c t :
  PyStr.split_go sep skip (String c t) =
  match skip with
  | S k => PyStr.split_go sep k t
  | O =>
      if String.prefix sep (String c t)
      then "" :: PyStr.split_go sep (String.length sep - 1) t
      else match PyStr.split_go sep 0 t with
           | h :: r => String c h :: r
           | [] => [String c ""]
           end
  end.
Proof. reflexivity. Qed.

Lemma split_go_not_nil sep skip s : PyStr.split_go sep skip s <> [].
Proof.
  revert skip.
  induction s as [|c t IH]; intros skip; [intros E; discriminate E|].
  rewrite split_go_cons.
  destruct skip as [|k]; [|apply IH].
  destruct (String.prefix sep (String c t)); [intros E; discriminate E|].
  destruct (PyStr.split_go sep 0 t); intros E; discriminate E.
Qed.

Lemma prefix_slash c t :
  String.prefix "/" (String c t) = Ascii.eqb c "/".
Proof.
  change (String.prefix "/" (String c t))
    with (match ascii_dec "/" c with
          | left _ => String.prefix "" t
          | right _ => false
          end).
  destruct (ascii_dec "/" c) as [<-|N].
  - destruct t; reflexivity.
  - symmetry. apply Ascii.eqb_neq. congruence.
Qed.

Lemma split_slash_hd t :
  PyStr.split "/" (String "/" t) = "" :: PyStr.split "/" t.
Proof.
  unfold PyStr.split. rewrite split_go_cons, prefix_slash. reflexivity.
Qed.

Lemma split_slash_tl c t :
  c <> "/"%char ->
  exists h r, PyStr.split "/" t = h :: r /\
              PyStr.split "/" (String c t) = String c h :: r.
Proof.
  intros Hc. unfold PyStr.split. rewrite split_go_cons, prefix_slash.
  apply Ascii.eqb_neq in Hc. rewrite Hc.
  destruct (PyStr.split_go "/" 0 t) as [|h r] eqn:E.
  - exfalso. exact (split_go_not_nil _ _ _ E).
  - exists h, r. split; reflexivity.
Qed.

Lemma split_slash_free s : slash_free s = true -> PyStr.split "/" s = [s].
Proof.
  induction s as [|c t IH]; simpl; [reflexivity|].
  intros [Hc Ht]%andb_prop.
  apply negb_true_iff, Ascii.eqb_neq in Hc.
  destruct (split_slash_tl c t Hc) as (h & r & E1 & E2).
  rewrite E2. rewrite (IH Ht) in E1. congruence.
Qed.

Lemma split_app a b :
  PyStr.split "/" (a +:+ "/" +:+ b) = PyStr.split "/" a ++ PyStr.split "/" b.
Proof.
  induction a as [|c a IH].
  - change ("" +:+ "/" +:+ b) with (String "/" b).
    rewrite split_slash_hd. reflexivity.
  - rewrite app_cons. destruct (ascii_dec c "/") as [->|Hc].
    + rewrite !split_slash_hd, IH. reflexivity.
    + destruct (split_slash_tl c (a +:+ "/" +:+ b) Hc) as (h & r & E1 & ->).
      destruct (split_slash_tl c a Hc) as (h' & r' & E1' & ->).
      rewrite IH, E1' in E1. simpl in E1. injection E1 as <- <-.
      reflexivity.
Qed.

Lemma split_all_slash_free s : Forall (fun x => slash_free x = true) (PyStr.split "/" s).
Proof.
  induction s as [|c t IH]; [repeat constructor|].
  destruct (ascii_dec c "/") as [->|Hc].
  - rewrite split_slash_hd. constructor; [reflexivity|exact IH].
  - destruct (split_slash_tl c t Hc) as (h & r & E1 & ->).
    rewrite E1 in IH. inversion IH; subst. constructor; [|assumption].
    simpl. apply andb_true_intro. split; [|assumption].
    apply negb_true_iff, Ascii.eqb_neq. exact Hc.
Qed.

Lemma splits_app a b : splits (a +:+ "/" +:+ b) = splits a ++ splits b.
Proof. unfold splits. rewrite split_app. apply List.filter_app. Qed.

Lemma splits_segment s : is_segment s = true -> splits s = [s].
Proof.
  intros [Ht Hs]%andb_prop. unfold splits.
  rewrite (split_slash_free s Hs). simpl. rewrite Ht. reflexivity.
Qed.

Lemma splits_empty : splits "" = [].
Proof. reflexivity. Qed.

Lemma splits_all_segments ts :
  Forall (fun x => is_segment x = true) (splits ts).
Proof.
  unfold splits. pose proof (split_all_slash_free ts) as H.
  induction H as [|x l Hx Hl IH]; simpl; [constructor|].
  destruct (PyStr.truthy x) eqn:E; [|exact IH].
  constructor; [|exact IH]. unfold is_segment. rewrite E, Hx. reflexivity.
Qed.

(** Extra slashes do not change the segments. *)
Lemma splits_leading_slash ts : splits ("/" +:+ ts) = splits ts.
Proof. change ("/" +:+ ts) with ("" +:+ "/" +:+ ts). apply splits_app. Qed.

Lemma splits_trailing_slash ts : splits (ts +:+ "/") = splits ts.
Proof.
  change (ts +:+ "/") with (ts +:+ "/" +:+ "").
  rewrite splits_app, splits_empty. apply app_nil_r.
Qed.

Lemma splits_double_slash a b :
  splits (a +:+ "/" +:+ "/" +:+ b) = splits (a +:+ "/" +:+ b).
Proof. rewrite !splits_app, splits_leading_slash. reflexivity. Qed.

Lemma splits_pair m c :
  is_segment m = true -> is_segment c = true ->
  splits (m +:+ "/" +:+ c) = [m; c].
Proof.
  intros Hm Hc. rewrite splits_app, (splits_segment m Hm), (splits_segment c Hc).
  reflexivity.
Qed.

Lemma splits_triple m s c :
  is_segment m = true -> is_segment s = true -> is_segment c = true ->
  splits (m +:+ "/" +:+ s +:+ "/" +:+ c) = [m; s; c].
Proof.
  intros Hm Hs Hc.
  rewrite splits_app, (splits_segment m Hm), (splits_pair s c Hs Hc).
  reflexivity.
Qed.

(** What [_splittype] returns are two segments, and the normalised type
    string built from them splits into the same two. *)
Lemma splittype_segments ts m c :
  _splittype ts = Ok (m, c) -> is_segment m = true /\ is_segment c = true.
Proof.
  unfold _splittype. pose proof (splits_all_segments ts) as H.
  destruct (splits ts) as [|s0 [|s1 [|s2 [|s3 [|s4 l]]]]]; try discriminate.
  - intros [= <- <-]. inversion H as [|? ? H0 H']; subst.
    inversion H' as [|? ? H1 _]; subst. auto.
  - intros [= <- <-]. inversion H as [|? ? H0 H']; subst.
    inversion H' as [|? ? H1 H'']; subst.
    inversion H'' as [|? ? H2 _]; subst. auto.
  - destruct (String.eqb s1 "action"); [|discriminate].
    intros [= <- <-]. inversion H as [|? ? H0 H']; subst.
    inversion H' as [|? ? H1 H'']; subst.
    inversion H'' as [|? ? H2 H''']; subst.
    inversion H''' as [|? ? H3 _]; subst. auto.
Qed.

Lemma splittype_pair m c :
  is_segment m = true -> is_segment c = true ->
  _splittype (m +:+ "/" +:+ c) = Ok (m, c).
Proof.
  intros Hm Hc. unfold _splittype. rewrite (splits_pair m c Hm Hc).
  reflexivity.
Qed.

Lemma splittype_normalised ts m c :
  _splittype ts = Ok (m, c) -> _splittype (m +:+ "/" +:+ c) = Ok (m, c).
Proof.
  intros H. destruct (splittype_segments ts m c H). now apply splittype_pair.
Qed.

(** [_splittype] looks at the segments only; the type string itself
    shows up in the exception alone. *)
Lemma splittype_same_splits ts1 ts2 :
  splits ts1 = splits ts2 ->
  match _splittype ts1, _splittype ts2 with
  | Ok mc1, Ok mc2 => mc1 = mc2
  | Err e1, Err e2 =>
      e1 = InvalidTypeStringException ts1 /\
      e2 = InvalidTypeStringException ts2
  | _, _ => False
  end.
Proof.
  intros E. unfold _splittype. rewrite <- E.
  destruct (splits ts1) as [|s0 [|s1 [|s2 [|s3 [|s4 l]]]]]; auto.
  destruct (String.eqb s1 "action"); auto.
Qed.

End SplitFacts.

(* ===================================================================== *)
(** ** Facts about the hidden action subname *)
(* ===================================================================== *)

Section ActionSubnameFacts.

Lemma length_app (a b : string) :
  String.length (a +:+ b) = String.length a + String.length b.
Proof. induction a as [|c a IH]; simpl; [reflexivity|]. now rewrite IH. Qed.

Lemma substring_all (s : string) : String.substring 0 (String.length s) s = s.
Proof. induction s as [|c s IH]; simpl; [reflexivity|]. now rewrite IH. Qed.

Lemma substring_app_skip (a b : string) k n :
  String.substring (String.length a + k) n (a +:+ b) = String.substring k n b.
Proof. induction a as [|c a IH]; simpl; [reflexivity|]. exact IH. Qed.

Lemma substring_app_take (a b : string) :
  String.substring 0 (String.length a) (a +:+ b) = a.
Proof.
  induction a as [|c a IH]; simpl.
  - destruct b; reflexivity.
  - rewrite ?app_cons. simpl. now rewrite IH.
Qed.

Lemma substring_split (s : string) n :
  n <= String.length s ->
  s = String.substring 0 n s +:+ String.substring n (String.length s - n) s.
Proof.
  revert n. induction s as [|c s IH]; intros n Hn.
  - destruct n; reflexivity.
  - destruct n as [|n].
    + simpl. now rewrite substring_all.
    + simpl in Hn. simpl. rewrite ?app_cons. f_equal. apply IH. lia.
Qed.

Lemma endswith_app base suf : PyStr.endswith (base +:+ suf) suf = true.
Proof.
  unfold PyStr.endswith. rewrite length_app.
  apply andb_true_intro. split.
  - apply Nat.leb_le. lia.
  - replace (String.length base + String.length suf - String.length suf)
      with (String.length base + 0) by lia.
    rewrite substring_app_skip, substring_all. apply String.eqb_refl.
Qed.

Lemma endswith_inv s suf :
  PyStr.endswith s suf = true -> exists base, s = base +:+ suf.
Proof.
  unfold PyStr.endswith. intros [Hlen Heq]%andb_prop.
  apply Nat.leb_le in Hlen. apply String.eqb_eq in Heq.
  exists (String.substring 0 (String.length s - String.length suf) s).
  pose proof (substring_split s (String.length s - String.length suf)
                              ltac:(lia)) as H.
  replace (String.length s - (String.length s - String.length suf))
    with (String.length suf) in H by lia.
  rewrite Heq in H. exact H.
Qed.

Lemma drop_last_app base suf :
  PyStr.drop_last (String.length suf) (base +:+ suf) = base.
Proof.
  unfold PyStr.drop_last. rewrite length_app.
  replace (String.length base + String.length suf - String.length suf)
    with (String.length base) by lia.
  apply substring_app_take.
Qed.

Lemma get_result_not_send_goal base :
  PyStr.endswith (base +:+ "_GetResult") "_SendGoal" = false.
Proof.
  unfold PyStr.endswith. rewrite length_app.
  replace (String.length base + String.length "_GetResult"
           - String.length "_SendGoal")
    with (String.length base + 1) by (simpl; lia).
  rewrite substring_app_skip. apply andb_false_r.
Qed.

(** The regular expression, position by position. *)
Lemma camel_match_len before c t :
  Re.match_len camel_regex (before, String c t) =
  let preceded :=
    match before with
    | p :: _ => PyStr.is_lower p || PyStr.is_digit p
    | [] => false
    end in
  let followed :=
    match t with
    | String n _ => PyStr.is_lower n
    | EmptyString => false
    end in
  let not_first := match before with _ :: _ => true | [] => false end in
  if PyStr.is_upper c && (preceded || (followed && not_first))
  then Some 1 else None.
Proof.
  assert (Hone : String.length (String c t) - String.length t = 1)
    by (simpl; lia).
  unfold Re.match_len, camel_regex.
  destruct (PyStr.is_upper c) eqn:Eu;
    destruct before as [|p before]; destruct t as [|n t'];
    try destruct (PyStr.is_lower p) eqn:Elp;
    try destruct (PyStr.is_digit p) eqn:Edp;
    try destruct (PyStr.is_lower n) eqn:Eln;
    repeat (cbn [flat_map app Re.rmatch fst snd andb orb];
            repeat match goal with
                   | H : PyStr.is_upper _ = _ |- _ => progress rewrite H
                   | H : PyStr.is_lower _ = _ |- _ => progress rewrite H
                   | H : PyStr.is_digit _ = _ |- _ => progress rewrite H
                   end);
    try rewrite Hone; reflexivity.
Qed.

Lemma sub_go_cons r repl before skip c t :
  Re.sub_go r repl before skip (String c t) =
  match skip with
  | S k => Re.sub_go r repl (c :: before) k t
  | O =>
      match Re.match_len r (before, String c t) with
      | Some (S n) =>
          String.append (repl (String.substring 0 (S n) (String c t)))
                        (Re.sub_go r repl (c :: before) n t)
      | _ => String c (Re.sub_go r repl (c :: before) 0 t)
      end
  end.
Proof. reflexivity. Qed.

Lemma sub_go_camel before s :
  Re.sub_go camel_regex (fun g1 => String.append "_" g1) before 0 s =
  underscored (hd_error before) s.
Proof.
  revert before. induction s as [|c t IH]; intros before; [reflexivity|].
  rewrite sub_go_cons, camel_match_len. cbn [underscored].
  assert (Hsub : String.substring 0 1 (String c t) = String c "")
    by (simpl; destruct t; reflexivity).
  destruct before as [|p before]; cbn [hd_error].
  - rewrite andb_false_r, orb_false_r, andb_false_r.
    rewrite IH. reflexivity.
  - destruct (PyStr.is_upper c &&
              (PyStr.is_lower p || PyStr.is_digit p ||
               match t with
               | "" => false
               | String n _ => PyStr.is_lower n
               end && true)).
    + rewrite Hsub, IH. reflexivity.
    + rewrite IH. reflexivity.
Qed.

(** The regular expression does what the interface documents. *)
Lemma camel_to_snake_case_spec camel :
  camel_to_snake_case camel = camel_to_snake_spec camel.
Proof.
  unfold camel_to_snake_case, camel_to_snake_spec, Re.sub.
  rewrite sub_go_camel. reflexivity.
Qed.

(** C5: a subname that [split("._")] cuts in two is returned as it is.
    Otherwise a class name [base + "_SendGoal"] or [base + "_GetResult"]
    gives [subname + "._" + snake], where [snake] is [base] with an
    underscore before every uppercase letter that follows a lowercase
    letter or digit, or precedes a lowercase letter and is not first,
    and then lowercased; ["NavigateToPose"] becomes ["navigate_to_pose"].
    A class name with neither suffix raises
    [InvalidActionInterfaceException]. *)
Theorem hidden_action_subname_spec subname classname :
  (length (PyStr.split "._" subname) = 2 ->
   _get_hidden_action_subname subname classname = Ok subname) /\
  (length (PyStr.split "._" subname) <> 2 ->
   forall base suffix,
     suffix = "_SendGoal" \/ suffix = "_GetResult" ->
     classname = base +:+ suffix ->
     _get_hidden_action_subname subname classname
       = Ok (subname +:+ "._" +:+ camel_to_snake_spec base)) /\
  (length (PyStr.split "._" subname) <> 2 ->
   (forall base, classname <> base +:+ "_SendGoal") ->
   (forall base, classname <> base +:+ "_GetResult") ->
   _get_hidden_action_subname subname classname
     = Err (InvalidActionInterfaceException classname)) /\
  camel_to_snake_case "NavigateToPose" = "navigate_to_pose".
Proof.
  unfold _get_hidden_action_subname, remove_autogenerated_suffixes.
  cbn [autogenerated_suffixes remove_suffixes].
  repeat split.
  - intros H. rewrite H. reflexivity.
  - intros H base suffix Hsuf ->.
    apply Nat.eqb_neq in H. rewrite H.
    destruct Hsuf as [-> | ->].
    + rewrite endswith_app, drop_last_app, camel_to_snake_case_spec.
      reflexivity.
    + rewrite get_result_not_send_goal, endswith_app, drop_last_app,
        camel_to_snake_case_spec.
      reflexivity.
  - intros H Hsend Hget. apply Nat.eqb_neq in H. rewrite H.
    destruct (PyStr.endswith classname "_SendGoal") eqn:E1.
    { destruct (endswith_inv _ _ E1) as [base Hb]. destruct (Hsend base Hb). }
    destruct (PyStr.endswith classname "_GetResult") eqn:E2.
    { destruct (endswith_inv _ _ E2) as [base Hb]. destruct (Hget base Hb). }
    reflexivity.
Qed.

End ActionSubnameFacts.

(* ===================================================================== *)
(** ** Running the loader in one thread *)
(* ===================================================================== *)

Section RunFacts.

Context {PyModule Handle : Type}.
Variable import_module : string -> provided PyModule.
Variable getattr : PyModule -> string -> provided Handle.

Local Abbreviation run := (run import_module getattr).
Local Abbreviation load_then_cache := (load_then_cache import_module getattr).
Local Abbreviation reachable := (reachable import_module getattr).
Local Abbreviation state := (state PyModule Handle).
Local Abbreviation prog := (prog PyModule Handle).

Implicit Types (st : state) (c : cache_ref) (l : lock_ref).

Lemma run_bind {A B} (p : prog A) (f : A -> prog B) st :
  run (bind p f) st =
  match run p st with
  | (Returned a, st') => run (f a) st'
  | (Raised e, st') => (Raised e, st')
  | (Blocked, st') => (Blocked, st')
  end.
Proof.
  revert st.
  induction p as [a|e|l k IH|l k IH|c key k IH|c key k IH|c key v k IH
                 |name k IH|m name k IH]; intros st; simpl; auto.
  - destruct (lock_of l st); auto.
  - destruct (lock_of l st); auto.
  - destruct (cache_of c st !! key); auto.
Qed.

Lemma run_try_except {A} (p : prog A) catches (handler : prog A) st :
  catches RuntimeError = false ->
  (forall key, catches (KeyError key) = false) ->
  run (try_except p catches handler) st =
  match run p st with
  | (Raised e, st') =>
      if catches e then run handler st' else (Raised e, st')
  | other => other
  end.
Proof.
  intros HR HK. revert st.
  induction p as [a|e|l k IH|l k IH|c key k IH|c key k IH|c key v k IH
                 |name k IH|m name k IH]; intros st; simpl; auto.
  - destruct (catches e); auto.
  - destruct (lock_of l st); auto.
  - destruct (lock_of l st); auto. rewrite HR. reflexivity.
  - destruct (cache_of c st !! key); auto. rewrite HK. reflexivity.
Qed.

Lemma run_bind_lift {A B} (r : result A) (f : A -> prog B) st :
  run (bind (lift r) f) st =
  match r with
  | Ok a => run (f a) st
  | Err e => (Raised e, st)
  end.
Proof. destruct r; reflexivity. Qed.

(** Bookkeeping on states. *)
Lemma unlock_lock l st :
  lock_of l st = false -> set_lock l false (set_lock l true st) = st.
Proof. destruct st, l; simpl; intros ->; reflexivity. Qed.

Lemma cache_of_set_lock c l b st : cache_of c (set_lock l b st) = cache_of c st.
Proof. destruct c, l; reflexivity. Qed.

Lemma lock_of_set_lock l b st : lock_of l (set_lock l b st) = b.
Proof. destruct l; reflexivity. Qed.

Lemma lock_of_set_item l c key v st :
  lock_of l (set_item c key v st) = lock_of l st.
Proof. destruct c, l; reflexivity. Qed.

Lemma lock_of_record_call l call st :
  lock_of l (record_call call st) = lock_of l st.
Proof. destruct l; reflexivity. Qed.

Lemma cache_of_record_call c call st :
  cache_of c (record_call call st) = cache_of c st.
Proof. destruct c; reflexivity. Qed.

Lemma cache_of_set_item c key v st :
  cache_of c (set_item c key v st) = <[key:=v]> (cache_of c st).
Proof. destruct c; reflexivity. Qed.

Lemma cache_of_set_item_other c c' key v st :
  c <> c' -> cache_of c' (set_item c key v st) = cache_of c' st.
Proof. destruct c, c'; intros N; try reflexivity; congruence. Qed.

Lemma calls_set_item c key v st : calls (set_item c key v st) = calls st.
Proof. destruct c; reflexivity. Qed.

(** The two cache helpers: with the lock free, the lookup answers from
    the dict and leaves the state as it was; with the lock taken, it
    waits. *)
Lemma run_get_from_cache c l key st :
  lock_of l st = false ->
  run (_get_from_cache c l key) st = (Returned (cache_of c st !! key), st).
Proof.
  intros Hl. unfold _get_from_cache. simpl.
  rewrite Hl, !cache_of_set_lock.
  destruct (cache_of c st !! key) as [v|] eqn:E.
  - rewrite bool_decide_eq_true_2 by eauto.
    simpl. rewrite cache_of_set_lock, E, lock_of_set_lock. simpl.
    rewrite unlock_lock by assumption. reflexivity.
  - rewrite bool_decide_eq_false_2 by (intros [? ?]; discriminate).
    simpl. rewrite lock_of_set_lock. simpl.
    rewrite unlock_lock by assumption. reflexivity.
Qed.

Lemma run_get_from_cache_locked c l key st :
  lock_of l st = true ->
  run (_get_from_cache c l key) st = (Blocked, st).
Proof. intros Hl. unfold _get_from_cache. simpl. rewrite Hl. reflexivity. Qed.

Lemma set_item_unlock c l key v st :
  set_lock l false (set_item c key v (set_lock l true st)) =
  set_item c key v (set_lock l false st).
Proof. destruct c, l; reflexivity. Qed.

Lemma set_lock_same l st : lock_of l st = false -> set_lock l false st = st.
Proof. destruct st, l; simpl; intros ->; reflexivity. Qed.

Lemma run_add_to_cache c l key v st :
  lock_of l st = false ->
  run (_add_to_cache c l key v) st = (Returned tt, set_item c key v st).
Proof.
  intros Hl. unfold _add_to_cache. simpl.
  rewrite Hl, lock_of_set_item, lock_of_set_lock. simpl.
  rewrite set_item_unlock, set_lock_same by assumption. reflexivity.
Qed.

Lemma run_load_class modname subname classname st :
  run (_load_class modname subname classname) st =
  let name := modname +:+ "." +:+ subname in
  let st1 := record_call (CallImport name) st in
  match import_module name with
  | Failed cause => (Raised (InvalidModuleException modname subname cause), st1)
  | Found pypkg =>
      let st2 := record_call (CallGetattr pypkg classname) st1 in
      match getattr pypkg classname with
      | Failed cause =>
          (Raised (InvalidClassException modname subname classname cause), st2)
      | Found cls => (Returned cls, st2)
      end
  end.
Proof.
  unfold _load_class. simpl.
  destruct (import_module (modname +:+ "." +:+ subname)) as [pypkg|cause];
    simpl; [|reflexivity].
  destruct (getattr pypkg classname); reflexivity.
Qed.

Lemma run_get_class typestring subname c l st :
  lock_of l st = false ->
  run (_get_class typestring subname c l) st =
  match cache_of c st !! typestring with
  | Some cls => (Returned cls, st)
  | None =>
      match _splittype typestring with
      | Err e => (Raised e, st)
      | Ok (modname, classname) =>
          match cache_of c st !! (modname +:+ "/" +:+ classname) with
          | Some cls => (Returned cls, st)
          | None => load_then_cache typestring modname subname classname c st
          end
      end
  end.
Proof.
  intros Hl. unfold _get_class.
  rewrite run_bind, run_get_from_cache by assumption.
  destruct (cache_of c st !! typestring) as [cls|]; [reflexivity|].
  rewrite run_bind_lift.
  destruct (_splittype typestring) as [[modname classname]|e];
    [|reflexivity].
  cbn [fst snd].
  rewrite run_bind, run_get_from_cache by assumption.
  destruct (cache_of c st !! (modname +:+ "/" +:+ classname)) as [cls|];
    [reflexivity|].
  rewrite run_bind, run_load_class. unfold load_then_cache.
  destruct (import_module (modname +:+ "." +:+ subname)) as [pypkg|cause];
    [|reflexivity].
  destruct (getattr pypkg classname) as [cls|cause]; [|reflexivity].
  rewrite run_bind, run_add_to_cache
    by (rewrite !lock_of_record_call; assumption).
  rewrite run_bind, run_add_to_cache
    by (rewrite lock_of_set_item, !lock_of_record_call; assumption).
  reflexivity.
Qed.

Lemma run_get_class_locked typestring subname c l st :
  lock_of l st = true ->
  run (_get_class typestring subname c l) st = (Blocked, st).
Proof.
  intros Hl. unfold _get_class.
  rewrite run_bind, run_get_from_cache_locked by assumption. reflexivity.
Qed.

(* ------------------------------------------------------------------- *)
(** *** The two entry points *)

Lemma get_class_for_eq c typestring :
  (get_class_for c typestring : prog Handle) =
  try_except (first_attempt c typestring) module_or_class_error
             (retry c typestring).
Proof. destruct c; reflexivity. Qed.

Lemma lock_for_cases l st :
  _msgs_lock st = false -> _srvs_lock st = false -> lock_of l st = false.
Proof. destruct l; simpl; auto. Qed.

Lemma splittype_error typestring e :
  _splittype typestring = Err e -> e = InvalidTypeStringException typestring.
Proof.
  unfold _splittype.
  destruct (splits typestring) as [|s0 [|s1 [|s2 [|s3 [|s4 rest]]]]];
    try destruct (String.eqb s1 "action"); congruence.
Qed.

Lemma hidden_action_subname_error subname classname e :
  _get_hidden_action_subname subname classname = Err e ->
  e = InvalidActionInterfaceException classname.
Proof.
  unfold _get_hidden_action_subname, remove_autogenerated_suffixes. simpl.
  destruct (length (PyStr.split "._" subname) =? 2); [discriminate|].
  destruct (PyStr.endswith classname "_SendGoal"); [discriminate|].
  destruct (PyStr.endswith classname "_GetResult"); [discriminate|].
  congruence.
Qed.

Lemma first_subname_error c typestring e :
  first_subname c typestring = Err e ->
  exists classname, e = InvalidActionInterfaceException classname.
Proof.
  destruct c; simpl; [discriminate|]. unfold srv_subname.
  destruct (2 <? length (splits typestring)); [|discriminate].
  destruct (String.eqb (nth 1 (splits typestring) "") "action");
    [|discriminate].
  intros H. eexists. exact (hidden_action_subname_error _ _ _ H).
Qed.

Lemma load_raised typestring modname subname classname c st e st1 :
  load_then_cache typestring modname subname classname c st = (Raised e, st1) ->
  module_or_class_error e = true /\
  _loaded_msgs st1 = _loaded_msgs st /\ _loaded_srvs st1 = _loaded_srvs st /\
  _msgs_lock st1 = _msgs_lock st /\ _srvs_lock st1 = _srvs_lock st.
Proof.
  unfold load_then_cache.
  destruct (import_module (modname +:+ "." +:+ subname)) as [pypkg|cause].
  - destruct (getattr pypkg classname) as [cls|cause]; [discriminate|].
    intros [= <- <-]. repeat split; reflexivity.
  - intros [= <- <-]. repeat split; reflexivity.
Qed.

Lemma load_returned typestring modname subname classname c st cls st1 :
  load_then_cache typestring modname subname classname c st
    = (Returned cls, st1) ->
  cache_of c st1 =
    <[modname +:+ "/" +:+ classname := cls]>
      (<[typestring := cls]> (cache_of c st)) /\
  (forall c', c' <> c -> cache_of c' st1 = cache_of c' st) /\
  _msgs_lock st1 = _msgs_lock st /\ _srvs_lock st1 = _srvs_lock st.
Proof.
  unfold load_then_cache.
  destruct (import_module (modname +:+ "." +:+ subname)) as [pypkg|cause];
    [|discriminate].
  destruct (getattr pypkg classname) as [cls'|cause]; [|discriminate].
  intros [= <- <-]. split; [|split].
  - rewrite !cache_of_set_item, !cache_of_record_call. reflexivity.
  - intros c' N.
    rewrite !cache_of_set_item_other, !cache_of_record_call by congruence.
    reflexivity.
  - destruct c; split; reflexivity.
Qed.

Lemma load_not_blocked typestring modname subname classname c st st1 :
  load_then_cache typestring modname subname classname c st <> (Blocked, st1).
Proof.
  unfold load_then_cache.
  destruct (import_module (modname +:+ "." +:+ subname)) as [pypkg|cause];
    [|intros E; discriminate E].
  destruct (getattr pypkg classname); intros E; discriminate E.
Qed.

Lemma caches_eq c st st1 :
  _loaded_msgs st1 = _loaded_msgs st -> _loaded_srvs st1 = _loaded_srvs st ->
  cache_of c st1 = cache_of c st.
Proof. destruct c; simpl; auto. Qed.

Lemma locks_eq l st st1 :
  _msgs_lock st1 = _msgs_lock st -> _srvs_lock st1 = _srvs_lock st ->
  lock_of l st1 = lock_of l st.
Proof. destruct l; simpl; auto. Qed.

(** A call of an entry point with its lock free, case by case. *)
Lemma run_get_class_for c typestring st :
  lock_of (lock_for c) st = false ->
  run (get_class_for c typestring) st =
  match first_subname c typestring with
  | Err e => (Raised e, st)
  | Ok subname =>
    match cache_of c st !! typestring with
    | Some cls => (Returned cls, st)
    | None =>
      match _splittype typestring with
      | Err e => (Raised e, st)
      | Ok (modname, classname) =>
        match cache_of c st !! (modname +:+ "/" +:+ classname) with
        | Some cls => (Returned cls, st)
        | None =>
          match load_then_cache typestring modname subname classname c st with
          | (Raised e, st1) =>
              load_then_cache typestring modname (default_subname c)
                              classname c st1
          | other => other
          end
        end
      end
    end
  end.
Proof.
  intros Hl.
  rewrite get_class_for_eq, run_try_except by reflexivity.
  unfold first_attempt. rewrite run_bind_lift.
  destruct (first_subname c typestring) as [subname|e] eqn:Hsub.
  2:{ destruct (first_subname_error _ _ _ Hsub) as [cn ->]. reflexivity. }
  rewrite run_get_class by assumption.
  destruct (cache_of c st !! typestring) as [cls|] eqn:Hts; [reflexivity|].
  destruct (_splittype typestring) as [[modname classname]|e] eqn:Hsplit.
  2:{ rewrite (splittype_error _ _ Hsplit). reflexivity. }
  destruct (cache_of c st !! (modname +:+ "/" +:+ classname)) as [cls|] eqn:Hn;
    [reflexivity|].
  destruct (load_then_cache typestring modname subname classname c st)
    as [[cls|e|] st1] eqn:Hload; try reflexivity.
  destruct (load_raised _ _ _ _ _ _ _ _ Hload) as (-> & Hm & Hs & Hlm & Hls).
  unfold retry. rewrite run_get_class
    by (rewrite (locks_eq _ st st1); assumption).
  rewrite (caches_eq c st st1), Hts, Hsplit, Hn by assumption.
  reflexivity.
Qed.

Lemma run_get_class_for_locked c typestring st :
  lock_of (lock_for c) st = true ->
  run (get_class_for c typestring) st = (Blocked, st) \/
  exists e, run (get_class_for c typestring) st = (Raised e, st).
Proof.
  intros Hl.
  rewrite get_class_for_eq, run_try_except by reflexivity.
  unfold first_attempt. rewrite run_bind_lift.
  destruct (first_subname c typestring) as [subname|e] eqn:Hsub.
  - rewrite run_get_class_locked by assumption. left. reflexivity.
  - destruct (first_subname_error _ _ _ Hsub) as [cn ->]. right. eauto.
Qed.

Lemma load_imports typestring modname subname classname c st :
  imports (calls (snd (load_then_cache typestring modname subname classname
                                       c st)))
  = S (imports (calls st)).
Proof.
  unfold load_then_cache.
  destruct (import_module (modname +:+ "." +:+ subname)) as [pypkg|cause];
    [|reflexivity].
  destruct (getattr pypkg classname); simpl; rewrite ?calls_set_item;
    reflexivity.
Qed.

(** One call of an entry point imports at most twice: once in the first
    attempt, once in the fallback. *)
Lemma at_most_two_imports c typestring st :
  imports (calls (snd (run (get_class_for c typestring) st)))
  <= imports (calls st) + 2.
Proof.
  destruct (lock_of (lock_for c) st) eqn:Hl.
  { destruct (run_get_class_for_locked c typestring st Hl) as [->|[e ->]];
      simpl; lia. }
  rewrite run_get_class_for by assumption.
  destruct (first_subname c typestring) as [subname|e]; [|simpl; lia].
  destruct (cache_of c st !! typestring) as [cls|]; [simpl; lia|].
  destruct (_splittype typestring) as [[modname classname]|e]; [|simpl; lia].
  destruct (cache_of c st !! (modname +:+ "/" +:+ classname)) as [cls|];
    [simpl; lia|].
  pose proof (load_imports typestring modname subname classname c st) as H1.
  destruct (load_then_cache typestring modname subname classname c st)
    as [[cls|e|] st1]; simpl in H1; simpl; try lia.
  rewrite load_imports. lia.
Qed.

(* ------------------------------------------------------------------- *)
(** *** The invariant of the dicts *)

Lemma cache_inv_empty : cache_inv (∅ : gmap string Handle).
Proof. intros key cls H. rewrite lookup_empty in H. discriminate H. Qed.

Lemma cache_inv_insert (m : gmap string Handle) typestring modname classname cls :
  cache_inv m ->
  _splittype typestring = Ok (modname, classname) ->
  m !! typestring = None ->
  m !! (modname +:+ "/" +:+ classname) = None ->
  cache_inv (<[modname +:+ "/" +:+ classname := cls]> (<[typestring := cls]> m)).
Proof.
  intros Hinv Hsplit Hts Hnorm key cls' Hkey.
  set (norm := modname +:+ "/" +:+ classname) in *.
  destruct (decide (key = norm)) as [->|Nn].
  { rewrite lookup_insert_eq in Hkey. injection Hkey as <-.
    exists modname, classname. split.
    - exact (splittype_normalised _ _ _ Hsplit).
    - apply lookup_insert_eq. }
  rewrite lookup_insert_ne in Hkey by congruence.
  destruct (decide (key = typestring)) as [->|Nt].
  { rewrite lookup_insert_eq in Hkey. injection Hkey as <-.
    exists modname, classname. split; [assumption|apply lookup_insert_eq]. }
  rewrite lookup_insert_ne in Hkey by congruence.
  destruct (Hinv key cls' Hkey) as (mn & cn & Hk & Hl).
  exists mn, cn. split; [assumption|].
  rewrite !lookup_insert_ne; [assumption| |]; intros E;
    rewrite <- E in Hl; congruence.
Qed.

Lemma state_inv_locks st l : state_inv st -> lock_of l st = false.
Proof. intros (Hm & Hs & _). destruct l; assumption. Qed.

Lemma state_inv_cache st c : state_inv st -> cache_inv (cache_of c st).
Proof. intros (_ & _ & Hm & Hs). destruct c; assumption. Qed.

Lemma state_inv_intro st :
  (forall l, lock_of l st = false) ->
  (forall c, cache_inv (cache_of c st)) ->
  state_inv st.
Proof.
  intros Hl Hc. repeat split.
  - exact (Hl msgs_lock_ref).
  - exact (Hl srvs_lock_ref).
  - exact (Hc loaded_msgs_ref).
  - exact (Hc loaded_srvs_ref).
Qed.

(** How a call can have returned a class: found under the type string,
    found under the normalised type string, or loaded and stored under
    both. *)
Lemma returned_cases c typestring st cls st1 :
  run (get_class_for c typestring) st = (Returned cls, st1) ->
  lock_of (lock_for c) st = false /\
  (exists subname, first_subname c typestring = Ok subname) /\
  ((cache_of c st !! typestring = Some cls /\ st1 = st) \/
   (cache_of c st !! typestring = None /\
    exists modname classname,
      _splittype typestring = Ok (modname, classname) /\
      ((cache_of c st !! (modname +:+ "/" +:+ classname) = Some cls /\
        st1 = st) \/
       (cache_of c st !! (modname +:+ "/" +:+ classname) = None /\
        cache_of c st1 =
          <[modname +:+ "/" +:+ classname := cls]>
            (<[typestring := cls]> (cache_of c st)) /\
        (forall c', c' <> c -> cache_of c' st1 = cache_of c' st) /\
        _msgs_lock st1 = _msgs_lock st /\ _srvs_lock st1 = _srvs_lock st)))).
Proof.
  intros Hrun.
  destruct (lock_of (lock_for c) st) eqn:Hl.
  { destruct (run_get_class_for_locked c typestring st Hl) as [E|[e E]];
      rewrite Hrun in E; discriminate E. }
  split; [reflexivity|].
  rewrite run_get_class_for in Hrun by assumption.
  destruct (first_subname c typestring) as [subname|e]; [|discriminate].
  split; [eauto|].
  destruct (cache_of c st !! typestring) as [cls'|] eqn:Hts.
  { injection Hrun as <- <-. left. auto. }
  right. split; [reflexivity|].
  destruct (_splittype typestring) as [[modname classname]|e]; [|discriminate].
  exists modname, classname. split; [reflexivity|].
  destruct (cache_of c st !! (modname +:+ "/" +:+ classname)) as [cls'|] eqn:Hn.
  { injection Hrun as <- <-. left. auto. }
  right. split; [reflexivity|].
  destruct (load_then_cache typestring modname subname classname c st)
    as [[cls'|e|] st'] eqn:Hload.
  - injection Hrun as <- <-. exact (load_returned _ _ _ _ _ _ _ _ Hload).
  - destruct (load_raised _ _ _ _ _ _ _ _ Hload) as (_ & Hm & Hs & Hlm & Hls).
    destruct (load_returned _ _ _ _ _ _ _ _ Hrun) as (Hc & Hc' & Hlm' & Hls').
    rewrite (caches_eq c st st') in Hc by assumption.
    split; [assumption|]. split; [|split; congruence].
    intros c' N. rewrite (Hc' c' N). apply caches_eq; assumption.
  - discriminate.
Qed.

(** A call that did not return a class left both dicts as they were. *)
Lemma not_returned_caches c typestring st :
  (forall cls, fst (run (get_class_for c typestring) st) <> Returned cls) ->
  _loaded_msgs (snd (run (get_class_for c typestring) st)) = _loaded_msgs st /\
  _loaded_srvs (snd (run (get_class_for c typestring) st)) = _loaded_srvs st.
Proof.
  intros Hnot.
  destruct (lock_of (lock_for c) st) eqn:Hl.
  { revert Hnot.
    rewrite get_class_for_eq, run_try_except by reflexivity.
    unfold first_attempt. rewrite run_bind_lift.
    destruct (first_subname c typestring) as [subname|e] eqn:Hsub.
    - rewrite run_get_class_locked by assumption. auto.
    - destruct (first_subname_error _ _ _ Hsub) as [cn ->]. auto. }
  revert Hnot. rewrite run_get_class_for by assumption.
  destruct (first_subname c typestring) as [subname|e]; [|auto].
  destruct (cache_of c st !! typestring) as [cls'|]; [auto|].
  destruct (_splittype typestring) as [[modname classname]|e]; [|auto].
  destruct (cache_of c st !! (modname +:+ "/" +:+ classname)) as [cls'|];
    [auto|].
  destruct (load_then_cache typestring modname subname classname c st)
    as [[cls'|e|] st'] eqn:Hload.
  - intros Hnot. exfalso. exact (Hnot cls' eq_refl).
  - destruct (load_raised _ _ _ _ _ _ _ _ Hload) as (_ & Hm & Hs & _).
    destruct (load_then_cache typestring modname (default_subname c)
                              classname c st') as [[cls'|e'|] st''] eqn:Hload'.
    + intros Hnot. exfalso. exact (Hnot cls' eq_refl).
    + destruct (load_raised _ _ _ _ _ _ _ _ Hload') as (_ & Hm' & Hs' & _).
      intros _. simpl. split; congruence.
    + exfalso. exact (load_not_blocked _ _ _ _ _ _ _ Hload').
  - exfalso. exact (load_not_blocked _ _ _ _ _ _ _ Hload).
Qed.

Lemma not_returned_locks c typestring st l :
  lock_of (lock_for c) st = false ->
  (forall cls, fst (run (get_class_for c typestring) st) <> Returned cls) ->
  lock_of l (snd (run (get_class_for c typestring) st)) = lock_of l st.
Proof.
  intros Hl. rewrite run_get_class_for by assumption.
  destruct (first_subname c typestring) as [subname|e]; [|auto].
  destruct (cache_of c st !! typestring) as [cls'|]; [auto|].
  destruct (_splittype typestring) as [[modname classname]|e]; [|auto].
  destruct (cache_of c st !! (modname +:+ "/" +:+ classname)) as [cls'|];
    [auto|].
  destruct (load_then_cache typestring modname subname classname c st)
    as [[cls'|e|] st'] eqn:Hload.
  - intros Hnot. exfalso. exact (Hnot cls' eq_refl).
  - destruct (load_raised _ _ _ _ _ _ _ _ Hload) as (_ & _ & _ & Hlm & Hls).
    destruct (load_then_cache typestring modname (default_subname c)
                              classname c st') as [[cls'|e'|] st''] eqn:Hload'.
    + intros Hnot. exfalso. exact (Hnot cls' eq_refl).
    + destruct (load_raised _ _ _ _ _ _ _ _ Hload') as (_ & _ & _ & Hlm' & Hls').
      intros _. simpl. rewrite (locks_eq l st' st'') by assumption.
      apply locks_eq; assumption.
    + exfalso. exact (load_not_blocked _ _ _ _ _ _ _ Hload').
  - exfalso. exact (load_not_blocked _ _ _ _ _ _ _ Hload).
Qed.

Lemma state_inv_step c typestring st :
  state_inv st -> state_inv (snd (run (get_class_for c typestring) st)).
Proof.
  intros Hinv.
  destruct (run (get_class_for c typestring) st) as [o st1] eqn:Hrun.
  destruct o as [cls|e|].
  - destruct (returned_cases _ _ _ _ _ Hrun) as (_ & _ & Hcases). simpl.
    destruct Hcases as [[_ ->]|(Hts & mn & cn & Hsplit & Hcases)];
      [assumption|].
    destruct Hcases as [[_ ->]|(Hn & Hc & Hc' & Hlm & Hls)]; [assumption|].
    apply state_inv_intro.
    + intros l. rewrite (locks_eq l st st1) by assumption.
      apply state_inv_locks; assumption.
    + intros c'. destruct (decide (c' = c)) as [->|N].
      * rewrite Hc. apply cache_inv_insert; try assumption.
        apply state_inv_cache; assumption.
      * rewrite (Hc' c' N). apply state_inv_cache; assumption.
  - assert (Hnot : forall cls,
               fst (run (get_class_for c typestring) st) <> Returned cls)
      by (intros cls E; rewrite Hrun in E; discriminate E).
    destruct (not_returned_caches _ _ _ Hnot) as [Hm Hs].
    pose proof (fun l => not_returned_locks c typestring st l
                           (state_inv_locks st _ Hinv) Hnot) as Hl.
    rewrite Hrun in Hm, Hs, Hl. simpl in *.
    apply state_inv_intro.
    + intros l. rewrite Hl. apply state_inv_locks; assumption.
    + intros c'. rewrite (caches_eq c' st st1) by assumption.
      apply state_inv_cache; assumption.
  - assert (Hnot : forall cls,
               fst (run (get_class_for c typestring) st) <> Returned cls)
      by (intros cls E; rewrite Hrun in E; discriminate E).
    destruct (not_returned_caches _ _ _ Hnot) as [Hm Hs].
    pose proof (fun l => not_returned_locks c typestring st l
                           (state_inv_locks st _ Hinv) Hnot) as Hl.
    rewrite Hrun in Hm, Hs, Hl. simpl in *.
    apply state_inv_intro.
    + intros l. rewrite Hl. apply state_inv_locks; assumption.
    + intros c'. rewrite (caches_eq c' st st1) by assumption.
      apply state_inv_cache; assumption.
Qed.

Lemma reachable_inv st : reachable st -> state_inv st.
Proof.
  induction 1 as [|typestring st _ IH|typestring st _ IH].
  - apply state_inv_intro.
    + intros []; reflexivity.
    + intros []; apply cache_inv_empty.
  - exact (state_inv_step loaded_msgs_ref typestring st IH).
  - exact (state_inv_step loaded_srvs_ref typestring st IH).
Qed.

(** In a state the loader produced, a type string is cached only
    together with its normalised form, so the normalised lookup decides. *)
Lemma run_get_class_for_inv c typestring st :
  state_inv st ->
  run (get_class_for c typestring) st =
  match first_subname c typestring with
  | Err e => (Raised e, st)
  | Ok subname =>
    match _splittype typestring with
    | Err e => (Raised e, st)
    | Ok (modname, classname) =>
      match cache_of c st !! (modname +:+ "/" +:+ classname) with
      | Some cls => (Returned cls, st)
      | None =>
        match load_then_cache typestring modname subname classname c st with
        | (Raised e, st1) =>
            load_then_cache typestring modname (default_subname c)
                            classname c st1
        | other => other
        end
      end
    end
  end.
Proof.
  intros Hinv.
  rewrite run_get_class_for by (apply state_inv_locks; assumption).
  destruct (first_subname c typestring) as [subname|e]; [|reflexivity].
  destruct (cache_of c st !! typestring) as [cls|] eqn:Hts; [|reflexivity].
  destruct (state_inv_cache st c Hinv _ _ Hts) as (mn & cn & -> & ->).
  reflexivity.
Qed.

(** The type string passed to [load_then_cache] is only a key to store
    under: the outcome and the calls made do not depend on it. *)
Lemma load_then_cache_run typestring modname subname classname c st :
  load_then_cache typestring modname subname classname c st =
  match run (_load_class modname subname classname) st with
  | (Returned cls, st2) =>
      (Returned cls,
       set_item c (modname +:+ "/" +:+ classname) cls
                (set_item c typestring cls st2))
  | other => other
  end.
Proof.
  rewrite run_load_class. unfold load_then_cache.
  destruct (import_module (modname +:+ "." +:+ subname)) as [pypkg|cause];
    [|reflexivity].
  destruct (getattr pypkg classname); reflexivity.
Qed.

Lemma load_then_cache_key ts1 ts2 modname subname classname c st1 st2 :
  calls st1 = calls st2 ->
  fst (load_then_cache ts1 modname subname classname c st1) =
  fst (load_then_cache ts2 modname subname classname c st2) /\
  calls (snd (load_then_cache ts1 modname subname classname c st1)) =
  calls (snd (load_then_cache ts2 modname subname classname c st2)).
Proof.
  intros Hcalls. unfold load_then_cache.
  destruct (import_module (modname +:+ "." +:+ subname)) as [pypkg|cause].
  - destruct (getattr pypkg classname); simpl;
      rewrite ?calls_set_item; simpl; rewrite Hcalls; auto.
  - simpl. rewrite Hcalls. auto.
Qed.

(** The same for the load with its fallback. *)
Lemma load_with_fallback_key ts1 ts2 modname subname default classname c st :
  let attempt ts :=
    match load_then_cache ts modname subname classname c st with
    | (Raised e, st1) => load_then_cache ts modname default classname c st1
    | other => other
    end in
  fst (attempt ts1) = fst (attempt ts2) /\
  calls (snd (attempt ts1)) = calls (snd (attempt ts2)).
Proof.
  intros attempt. unfold attempt.
  destruct (load_then_cache_key ts1 ts2 modname subname classname c st st
                                eq_refl) as [Hf Hc].
  destruct (load_then_cache ts1 modname subname classname c st)
    as [[cls1|e1|] st1];
    destruct (load_then_cache ts2 modname subname classname c st)
      as [[cls2|e2|] st2]; simpl in Hf, Hc; try discriminate Hf; auto.
  apply load_then_cache_key. assumption.
Qed.

Lemma returned_normalised c typestring st cls st1 :
  state_inv st ->
  run (get_class_for c typestring) st = (Returned cls, st1) ->
  exists modname classname,
    _splittype typestring = Ok (modname, classname) /\
    cache_of c st1 !! (modname +:+ "/" +:+ classname) = Some cls.
Proof.
  intros Hinv Hrun.
  destruct (returned_cases _ _ _ _ _ Hrun) as (_ & _ & Hcases).
  destruct Hcases as [[Hts ->]|(Hts & mn & cn & Hsplit & Hcases)].
  - exact (state_inv_cache st c Hinv _ _ Hts).
  - exists mn, cn. split; [assumption|].
    destruct Hcases as [[Hn ->]|(Hn & Hc & _)]; [assumption|].
    rewrite Hc. apply lookup_insert_eq.
Qed.

(** Once a type string is resolved, any other spelling of the same
    package and class is answered from the dict. *)
Lemma resolved_then_shared c ts1 ts2 st cls st1 mc subname :
  state_inv st ->
  run (get_class_for c ts1) st = (Returned cls, st1) ->
  _splittype ts1 = Ok mc ->
  _splittype ts2 = Ok mc ->
  first_subname c ts2 = Ok subname ->
  run (get_class_for c ts2) st1 = (Returned cls, st1).
Proof.
  intros Hinv Hrun Hs1 Hs2 Hsub.
  pose proof (state_inv_step c ts1 st Hinv) as Hinv1.
  rewrite Hrun in Hinv1. simpl in Hinv1.
  destruct (returned_normalised _ _ _ _ _ Hinv Hrun) as (m & cn & Hs & Hl).
  rewrite Hs1 in Hs. injection Hs as ->.
  rewrite run_get_class_for_inv, Hsub, Hs2, Hl by assumption. reflexivity.
Qed.

Lemma splittype_hd_last typestring modname classname :
  _splittype typestring = Ok (modname, classname) ->
  modname = hd "" (splits typestring) /\
  classname = List.last (splits typestring) "".
Proof.
  unfold _splittype.
  destruct (splits typestring) as [|s0 [|s1 [|s2 [|s3 [|s4 rest]]]]];
    try discriminate.
  - intros [= <- <-]. auto.
  - intros [= <- <-]. auto.
  - destruct (String.eqb s1 "action"); [|discriminate].
    intros [= <- <-]. auto.
Qed.

(* ------------------------------------------------------------------- *)
(** *** Properties of a resolution *)

Lemma lookup_after_store (m : gmap string Handle) typestring norm cls :
  <[norm := cls]> (<[typestring := cls]> m) !! typestring = Some cls.
Proof.
  destruct (decide (norm = typestring)) as [->|N].
  - apply lookup_insert_eq.
  - rewrite lookup_insert_ne by assumption. apply lookup_insert_eq.
Qed.



(** C3: for both entry points, a first attempt that raises
    [InvalidModuleException] or [InvalidClassException] is followed by one
    more [_get_class] call with the default subname, whose outcome, class
    or exception, is the outcome of the whole call; every other outcome of
    the first attempt, [InvalidTypeStringException] and
    [InvalidActionInterfaceException] among them, is returned as it is.
    There is no further retry: a call imports at most twice. *)
Theorem fallback_retry c typestring st :
  run (get_class_for c typestring) st =
  match run (first_attempt c typestring) st with
  | (Raised e, st1) =>
      match e with
      | InvalidModuleException _ _ _ | InvalidClassException _ _ _ _ =>
          run (_get_class typestring (default_subname c) c (lock_for c)) st1
      | _ => (Raised e, st1)
      end
  | other => other
  end /\
  imports (calls (snd (run (get_class_for c typestring) st)))
  <= imports (calls st) + 2.
Proof.
  split; [|apply at_most_two_imports].
  rewrite get_class_for_eq, run_try_except by reflexivity.
  destruct (run (first_attempt c typestring) st) as [[cls|e|] st1];
    try reflexivity.
  destruct e; reflexivity.
Qed.

(** C4: a type string whose non-empty segments are not two, not three and
    not four with ["action"] second makes a resolution that gets as far as
    [_splittype] (lock free, type string not cached, subname worked out)
    raise [InvalidTypeStringException]; and whenever a resolution raises,
    both dicts are as they were before the call. *)
Theorem malformed_or_failed_leaves_cache c typestring st :
  (lock_of (lock_for c) st = false ->
   cache_of c st !! typestring = None ->
   (exists subname, first_subname c typestring = Ok subname) ->
   length (splits typestring) <> 2 ->
   length (splits typestring) <> 3 ->
   ~ (length (splits typestring) = 4 /\
      nth 1 (splits typestring) "" = "action") ->
   run (get_class_for c typestring) st
     = (Raised (InvalidTypeStringException typestring), st)) /\
  (forall e st1,
     run (get_class_for c typestring) st = (Raised e, st1) ->
     _loaded_msgs st1 = _loaded_msgs st /\ _loaded_srvs st1 = _loaded_srvs st).
Proof.
  split.
  - intros Hl Hts [subname Hsub] H2 H3 H4.
    rewrite run_get_class_for, Hsub, Hts by assumption.
    assert (_splittype typestring = Err (InvalidTypeStringException typestring))
      as ->; [|reflexivity].
    unfold _splittype.
    destruct (splits typestring) as [|s0 [|s1 [|s2 [|s3 [|s4 rest]]]]];
      try reflexivity; simpl in *; try congruence.
    destruct (String.eqb_spec s1 "action") as [->|N]; [|reflexivity].
    exfalso. apply H4. auto.
  - intros e st1 Hrun.
    assert (Hnot : forall cls,
               fst (run (get_class_for c typestring) st) <> Returned cls)
      by (intros cls E; rewrite Hrun in E; discriminate E).
    pose proof (not_returned_caches _ _ _ Hnot) as H.
    rewrite Hrun in H. exact H.
Qed.

Lemma same_outcome_refl {A} (o : outcome A) : same_outcome o o.
Proof. destruct o; constructor. Qed.

Lemma first_subname_splits c ts1 ts2 :
  splits ts1 = splits ts2 -> first_subname c ts1 = first_subname c ts2.
Proof.
  intros E. destruct c; simpl; unfold inferred_subname, srv_subname;
    rewrite E; reflexivity.
Qed.




(** C2, as the code has it: the hidden-action transform is applied by
    service resolution exactly when the type string has three or more
    non-empty segments and the second is ["action"]; with two segments or
    fewer, or another second segment, the first attempt uses the inferred
    subname untouched. *)
Theorem hidden_action_transform_applies typestring :
  let segs := splits typestring in
  (2 < length segs ->
   nth 1 segs "" = "action" ->
   (get_service_class typestring : prog Handle) =
   try_except
     (bind (lift (_get_hidden_action_subname
                    (PyStr.join "." (PyStr.slice_1_m1 segs))
                    (List.last segs "")))
           (fun subname =>
              _get_class typestring subname loaded_srvs_ref srvs_lock_ref))
     module_or_class_error
     (_get_class typestring "srv" loaded_srvs_ref srvs_lock_ref)) /\
  (length segs <= 2 \/ nth 1 segs "" <> "action" ->
   (get_service_class typestring : prog Handle) =
   try_except
     (_get_class typestring (inferred_subname "srv" typestring)
                 loaded_srvs_ref srvs_lock_ref)
     module_or_class_error
     (_get_class typestring "srv" loaded_srvs_ref srvs_lock_ref)).
Proof.
  intros segs. unfold get_service_class, _get_srv_class, srv_subname,
    inferred_subname. fold segs. split.
  - intros Hlen Hact. apply Nat.ltb_lt in Hlen. rewrite Hlen, Hact.
    reflexivity.
  - intros Hcase. destruct (2 <? length segs) eqn:Hlen; [|reflexivity].
    destruct (String.eqb_spec (nth 1 segs "") "action") as [E|N];
      [|reflexivity].
    apply Nat.ltb_lt in Hlen. destruct Hcase as [H|H]; [lia|contradiction].
Qed.

End RunFacts.

(* ===================================================================== *)
(** ** Two callers resolving the same type string *)
(* ===================================================================== *)

Section Concurrency.

Context {PyModule Handle : Type}.
Variable import_module : string -> provided PyModule.
Variable getattr : PyModule -> string -> provided Handle.

Local Abbreviation state := (state PyModule Handle).
Local Abbreviation prog := (prog PyModule Handle).
Local Abbreviation run := (run import_module getattr).
Local Abbreviation thread_step := (thread_step import_module getattr).
Local Abbreviation pool_step := (pool_step import_module getattr).
Local Abbreviation load_result := (load_result import_module getattr).

Section Scene.

Variable c : cache_ref.
Variables typestring modname classname : string.
Variable cls : Handle.

Local Abbreviation norm := (modname +:+ "/" +:+ classname).
Local Abbreviation good := (@good PyModule Handle c typestring norm cls).
Local Abbreviation future :=
  (@future PyModule Handle c typestring norm cls).
Local Abbreviation stable_wp :=
  (stable_wp import_module getattr c typestring norm cls).
Local Abbreviation returns_cls :=
  (@returns_cls PyModule Handle c typestring cls).
Local Abbreviation never_raises := (@never_raises PyModule Handle).

Implicit Types (st : state) (held owes : bool).

Lemma future_refl st : good st -> future st st.
Proof. intros H. split; auto. Qed.

Lemma future_trans st1 st2 st3 :
  future st1 st2 -> future st2 st3 -> future st1 st3.
Proof. intros [_ H12] [G3 H23]. split; auto. Qed.

Lemma future_good st st' : future st st' -> good st'.
Proof. intros [H _]. exact H. Qed.

Lemma future_lookup st st' key v :
  future st st' -> cache_of c st !! key = Some v ->
  cache_of c st' !! key = Some v.
Proof. intros [_ H]. apply H. Qed.

(** Preconditions survive the moves of the other caller. *)
Lemma stable_wp_mono {A} (p : prog A) held owes Q E st st' :
  (forall a h o s s', Q a h o s -> future s s' -> Q a h o s') ->
  (forall e h o s s', E e h o s -> future s s' -> E e h o s') ->
  stable_wp p held owes Q E st -> future st st' ->
  stable_wp p held owes Q E st'.
Proof.
  intros HQ HE Hwp Hfut.
  destruct p as [a|e|l k|l k|c' key k|c' key k|c' key v k|name k|m name k];
    simpl in *.
  - eapply HQ; eauto.
  - eapply HE; eauto.
  - destruct Hwp as (-> & -> & Hk). repeat split; auto.
    intros st'' H. apply Hk. eapply future_trans; eauto.
  - destruct Hwp as (-> & -> & Hk). repeat split; auto.
    intros st'' H. apply Hk. eapply future_trans; eauto.
  - destruct Hwp as (-> & -> & Hk). repeat split; auto.
    intros st'' H. apply Hk. eapply future_trans; eauto.
  - destruct Hwp as (-> & -> & v & Hv & Hk). repeat split; auto.
    exists v. split; [eapply future_lookup; eauto|].
    intros st'' H. apply Hk. eapply future_trans; eauto.
  - destruct Hwp as (-> & -> & -> & Hk). repeat split; auto.
    destruct Hk as [(-> & -> & Hk)|(-> & -> & Hts & Hk)]; [left|right].
    + repeat split; auto. intros st'' H. apply Hk. eapply future_trans; eauto.
    + repeat split; auto; [eapply future_lookup; eauto|].
      intros st'' H. apply Hk. eapply future_trans; eauto.
  - destruct Hwp as (-> & Hk). split; auto.
    intros st'' H. apply Hk. eapply future_trans; eauto.
  - destruct Hwp as (-> & Hk). split; auto.
    intros st'' H. apply Hk. eapply future_trans; eauto.
Qed.

Lemma stable_wp_bind {A B} (p : prog A) (f : A -> prog B) held owes Q E st :
  stable_wp p held owes (fun a h o s => stable_wp (f a) h o Q E s) E st ->
  stable_wp (bind p f) held owes Q E st.
Proof.
  revert held owes st.
  induction p as [a|e|l k IH|l k IH|c' key k IH|c' key k IH|c' key v k IH
                 |name k IH|m name k IH]; intros held owes st Hwp;
    simpl in *; auto.
  - destruct Hwp as (? & ? & Hk). repeat split; auto.
  - destruct Hwp as (? & ? & Hk). repeat split; auto.
  - destruct Hwp as (? & ? & Hk). repeat split; auto.
  - destruct Hwp as (? & ? & v & Hv & Hk). repeat split; auto.
    exists v. split; auto.
  - destruct Hwp as (? & ? & ? & Hk). repeat split; auto.
    destruct Hk as [(? & ? & Hk)|(? & ? & ? & Hk)]; [left|right];
      repeat split; auto.
  - destruct Hwp as (? & Hk). split; auto.
  - destruct Hwp as (? & Hk). split; auto.
Qed.

Lemma stable_wp_try_except {A} (p : prog A) (catches : exn -> bool)
      (handler : prog A) held owes Q E st :
  stable_wp p held owes Q
    (fun e h o s =>
       if catches e then stable_wp handler h o Q E s else E e h o s) st ->
  stable_wp (try_except p catches handler) held owes Q E st.
Proof.
  revert held owes st.
  induction p as [a|e|l k IH|l k IH|c' key k IH|c' key k IH|c' key v k IH
                 |name k IH|m name k IH]; intros held owes st Hwp;
    simpl in *; auto.
  - destruct (catches e); auto.
  - destruct Hwp as (? & ? & Hk). repeat split; auto.
  - destruct Hwp as (? & ? & Hk). repeat split; auto.
  - destruct Hwp as (? & ? & Hk). repeat split; auto.
  - destruct Hwp as (? & ? & v & Hv & Hk). repeat split; auto.
    exists v. split; auto.
  - destruct Hwp as (? & ? & ? & Hk). repeat split; auto.
    destruct Hk as [(? & ? & Hk)|(? & ? & ? & Hk)]; [left|right];
      repeat split; auto.
  - destruct Hwp as (? & Hk). split; auto.
  - destruct Hwp as (? & Hk). split; auto.
Qed.

(** The helpers. A lookup may miss a key that another caller stores a
    moment later, so a miss tells nothing about later states. *)
Lemma wp_get_from_cache key owes
      (Q : option Handle -> bool -> bool -> state -> Prop) E st :
  (forall st', future st st' -> Q None false owes st') ->
  (forall st' v, future st st' -> cache_of c st' !! key = Some v ->
                 Q (Some v) false owes st') ->
  stable_wp (_get_from_cache c (lock_for c) key) false owes Q E st.
Proof.
  intros Hmiss Hhit. unfold _get_from_cache. simpl.
  refine (conj eq_refl (conj eq_refl _)). intros st1 H1.
  refine (conj eq_refl (conj eq_refl _)). intros st2 H2.
  destruct (cache_of c st2 !! key) as [v|] eqn:Hv.
  - rewrite bool_decide_eq_true_2 by eauto. simpl.
    refine (conj eq_refl (conj eq_refl _)).
    exists v. split; [assumption|]. intros st3 H3.
    refine (conj eq_refl (conj eq_refl _)).
    intros st4 H4. apply Hhit.
    + eauto using future_trans.
    + eauto using future_lookup.
  - rewrite bool_decide_eq_false_2 by (intros [? ?]; discriminate).
    simpl. refine (conj eq_refl (conj eq_refl _)).
    intros st3 H3. apply Hmiss. eauto using future_trans.
Qed.

Lemma wp_add_typestring (Q : unit -> bool -> bool -> state -> Prop) E st :
  (forall st', future st st' -> cache_of c st' !! typestring = Some cls ->
               Q tt false true st') ->
  stable_wp (_add_to_cache c (lock_for c) typestring cls) false false Q E st.
Proof.
  intros HQ. unfold _add_to_cache. simpl.
  refine (conj eq_refl (conj eq_refl _)). intros st1 H1.
  refine (conj eq_refl (conj eq_refl (conj eq_refl _))). left.
  refine (conj eq_refl (conj eq_refl _)). intros st2 H2 Hts.
  refine (conj eq_refl (conj eq_refl _)). intros st3 H3. apply HQ.
  - eauto using future_trans.
  - eauto using future_lookup.
Qed.

Lemma wp_add_norm (Q : unit -> bool -> bool -> state -> Prop) E st :
  cache_of c st !! typestring = Some cls ->
  (forall st', future st st' -> cache_of c st' !! norm = Some cls ->
               Q tt false false st') ->
  stable_wp (_add_to_cache c (lock_for c) norm cls) false true Q E st.
Proof.
  intros Hts HQ. unfold _add_to_cache. simpl.
  refine (conj eq_refl (conj eq_refl _)). intros st1 H1.
  refine (conj eq_refl (conj eq_refl (conj eq_refl _))). right.
  refine (conj eq_refl (conj eq_refl (conj _ _)));
    [eauto using future_lookup|].
  intros st2 H2 Hn.
  refine (conj eq_refl (conj eq_refl _)). intros st3 H3. apply HQ.
  - eauto using future_trans.
  - eauto using future_lookup.
Qed.

Lemma wp_load_class subname owes
      (Q : Handle -> bool -> bool -> state -> Prop) E st :
  (forall st', future st st' ->
     match load_result modname subname classname with
     | Ok v => Q v false owes st'
     | Err e => E e false owes st'
     end) ->
  stable_wp (_load_class modname subname classname) false owes Q E st.
Proof.
  intros H. unfold _load_class, load_result in *. simpl.
  refine (conj eq_refl _). intros st1 H1.
  destruct (import_module (modname +:+ "." +:+ subname)) as [pypkg|cause].
  - simpl. refine (conj eq_refl _). intros st2 H2.
    assert (future st st2) as H12 by eauto using future_trans.
    specialize (H st2 H12).
    destruct (getattr pypkg classname); exact H.
  - simpl. exact (H st1 H1).
Qed.

Hypothesis Hsplit : _splittype typestring = Ok (modname, classname).

Lemma bind_lift_ok {A B} (a : A) (f : A -> prog B) :
  bind (lift (Ok a)) f = f a.
Proof. reflexivity. Qed.

Lemma returns_cls_stable a h o s s' :
  returns_cls a h o s -> future s s' -> returns_cls a h o s'.
Proof.
  intros (-> & -> & -> & Hts) Hfut. repeat split.
  eauto using future_lookup.
Qed.

Lemma never_raises_stable e h o s s' :
  never_raises e h o s -> future s s' -> never_raises e h o s'.
Proof. intros []. Qed.

Lemma good_typestring st v :
  good st -> cache_of c st !! typestring = Some v -> v = cls.
Proof. intros (H & _ & _). apply H. Qed.

Lemma good_norm st v :
  good st -> cache_of c st !! norm = Some v ->
  v = cls /\ cache_of c st !! typestring = Some cls.
Proof.
  intros (Hts & Hn & Hboth) Hv. split; [eauto|].
  destruct Hboth as [v' Hv']; [eauto|]. rewrite Hv'. f_equal. eauto.
Qed.

(** One [_get_class] call of a caller that holds nothing: it returns
    [cls], or it raises what the load raised. *)
Lemma wp_get_class subname E st :
  match load_result modname subname classname with
  | Ok v => v = cls
  | Err e => forall st', good st' -> E e false false st'
  end ->
  stable_wp (_get_class typestring subname c (lock_for c)) false false
            returns_cls E st.
Proof.
  intros Hload. unfold _get_class.
  apply stable_wp_bind, wp_get_from_cache.
  2:{ intros st1 v H1 Hv. simpl.
      rewrite (good_typestring st1 v) in * by eauto using future_good.
      repeat split. assumption. }
  intros st1 H1. rewrite Hsplit, bind_lift_ok. cbn [fst snd].
  apply stable_wp_bind, wp_get_from_cache.
  2:{ intros st2 v H2 Hv. simpl.
      destruct (good_norm st2 v) as [-> Hts]; eauto using future_good.
      repeat split. assumption. }
  intros st2 H2.
  apply stable_wp_bind, wp_load_class. intros st3 H3.
  destruct (load_result modname subname classname) as [v|e].
  - subst v. apply stable_wp_bind, wp_add_typestring. intros st4 H4 Hts.
    apply stable_wp_bind, wp_add_norm; [assumption|]. intros st5 H5 Hn.
    simpl. repeat split. eauto using future_lookup.
  - apply Hload. eauto using future_good.
Qed.

(** A whole call, when the load succeeds at once or in the fallback. *)
Lemma wp_get_class_for subname st :
  first_subname c typestring = Ok subname ->
  load_result modname subname classname = Ok cls \/
  (exists e, load_result modname subname classname = Err e /\
             module_or_class_error e = true /\
             load_result modname (default_subname c) classname = Ok cls) ->
  stable_wp (get_class_for c typestring) false false
            returns_cls never_raises st.
Proof.
  intros Hsub Hload.
  rewrite get_class_for_eq. apply stable_wp_try_except.
  unfold first_attempt. rewrite Hsub, bind_lift_ok.
  apply wp_get_class.
  destruct Hload as [->|(e & -> & He & Hdef)]; [reflexivity|].
  intros st' _. rewrite He. unfold retry.
  apply wp_get_class. rewrite Hdef. reflexivity.
Qed.

(** States that differ outside the dict are equally good. *)
Lemma good_same_cache st st' :
  cache_of c st' = cache_of c st -> good st -> good st'.
Proof. unfold good. intros ->. auto. Qed.

Lemma future_same_cache st st' :
  cache_of c st' = cache_of c st -> good st -> future st st'.
Proof.
  intros E G. split; [eapply good_same_cache; eauto|].
  intros key v. rewrite E. auto.
Qed.

Lemma future_store_typestring st :
  good st -> future st (set_item c typestring cls st).
Proof.
  intros (Hts & Hn & Hboth). split; [repeat split|].
  - intros v. rewrite cache_of_set_item, lookup_insert_eq. congruence.
  - intros v. rewrite cache_of_set_item.
    destruct (decide (typestring = norm)) as [E|N].
    + rewrite E at 1. rewrite lookup_insert_eq. congruence.
    + rewrite lookup_insert_ne by assumption. apply Hn.
  - intros _. rewrite cache_of_set_item, lookup_insert_eq. eauto.
  - intros key v Hv. rewrite cache_of_set_item.
    destruct (decide (typestring = key)) as [<-|N].
    + rewrite lookup_insert_eq. f_equal. symmetry. eauto.
    + rewrite lookup_insert_ne by assumption. assumption.
Qed.

Lemma future_store_norm st :
  good st -> cache_of c st !! typestring = Some cls ->
  future st (set_item c norm cls st).
Proof.
  intros (Hts & Hn & Hboth) Hpresent. split; [repeat split|].
  - intros v. rewrite cache_of_set_item.
    destruct (decide (norm = typestring)) as [E|N].
    + rewrite E at 1. rewrite lookup_insert_eq. congruence.
    + rewrite lookup_insert_ne by assumption. apply Hts.
  - intros v. rewrite cache_of_set_item, lookup_insert_eq. congruence.
  - intros _. rewrite cache_of_set_item.
    destruct (decide (norm = typestring)) as [E|N].
    + rewrite E at 1. rewrite lookup_insert_eq. eauto.
    + rewrite lookup_insert_ne by assumption. eauto.
  - intros key v Hv. rewrite cache_of_set_item.
    destruct (decide (norm = key)) as [<-|N].
    + rewrite lookup_insert_eq. f_equal. symmetry. eauto.
    + rewrite lookup_insert_ne by assumption. assumption.
Qed.

(** One step of a caller: its precondition moves on with it, the state
    moves to a later one, the lock is accounted for, and a store that is
    owed stays owed until [norm] is stored. *)
Lemma thread_step_wp (p p' : prog Handle) held owes other st st' :
  stable_wp p held owes returns_cls never_raises st ->
  good st ->
  lock_of (lock_for c) st = held || other ->
  held && other = false ->
  thread_step p st = Some (p', st') ->
  exists held' owes',
    stable_wp p' held' owes' returns_cls never_raises st' /\
    future st st' /\
    lock_of (lock_for c) st' = held' || other /\
    held' && other = false /\
    ((cache_of c st' = cache_of c st /\ owes' = owes) \/
     owes' = true \/ is_Some (cache_of c st' !! norm)).
Proof.
  intros Hwp Hgood Hlock Hexcl Hstep.
  destruct p as [a|e|l k|l k|c' key k|c' key k|c' key v k|name k|m name k];
    simpl in Hwp, Hstep; try discriminate.
  - destruct Hwp as (-> & -> & Hk).
    destruct (lock_of (lock_for c) st) eqn:Hl; [discriminate|].
    injection Hstep as <- <-. simpl in Hlock. subst other.
    assert (future st (set_lock (lock_for c) true st)) as Hfut
      by (apply future_same_cache; [apply cache_of_set_lock|assumption]).
    exists true, owes.
    split; [|split; [exact Hfut|split; [|split]]].
    + apply Hk, Hfut.
    + apply lock_of_set_lock.
    + reflexivity.
    + left. split; [apply cache_of_set_lock|reflexivity].
  - destruct Hwp as (-> & -> & Hk). simpl in Hlock, Hexcl. subst other.
    rewrite Hlock in Hstep. injection Hstep as <- <-.
    assert (future st (set_lock (lock_for c) false st)) as Hfut
      by (apply future_same_cache; [apply cache_of_set_lock|assumption]).
    exists false, owes.
    split; [|split; [exact Hfut|split; [|split]]].
    + apply Hk, Hfut.
    + apply lock_of_set_lock.
    + reflexivity.
    + left. split; [apply cache_of_set_lock|reflexivity].
  - destruct Hwp as (-> & -> & Hk). injection Hstep as <- <-.
    exists true, owes.
    split; [|split; [apply future_refl; assumption|split; [|split]]]; auto.
    apply Hk, future_refl. assumption.
  - destruct Hwp as (-> & -> & v & Hv & Hk). rewrite Hv in Hstep.
    injection Hstep as <- <-.
    exists true, owes.
    split; [|split; [apply future_refl; assumption|split; [|split]]]; auto.
    apply Hk, future_refl. assumption.
  - destruct Hwp as (-> & -> & -> & Hk). injection Hstep as <- <-.
    destruct Hk as [(-> & -> & Hk)|(-> & -> & Hts & Hk)].
    + pose proof (future_store_typestring st Hgood) as Hfut.
      exists true, true.
      split; [|split; [exact Hfut|split; [|split]]]; auto.
      all: try (rewrite lock_of_set_item; assumption).
      apply Hk; [assumption|].
      rewrite cache_of_set_item. apply lookup_insert_eq.
    + pose proof (future_store_norm st Hgood Hts) as Hfut.
      exists true, false.
      split; [|split; [exact Hfut|split; [|split]]]; auto.
      all: try (rewrite lock_of_set_item; assumption).
      * apply Hk; [assumption|].
        rewrite cache_of_set_item. apply lookup_insert_eq.
      * right. right. rewrite cache_of_set_item, lookup_insert_eq. eauto.
  - destruct Hwp as (-> & Hk). injection Hstep as <- <-.
    assert (future st (record_call (CallImport name) st)) as Hfut
      by (apply future_same_cache; [apply cache_of_record_call|assumption]).
    exists false, owes.
    split; [|split; [exact Hfut|split; [|split]]]; auto.
    all: try (rewrite lock_of_record_call; assumption).
    all: left; split; [apply cache_of_record_call|reflexivity].
  - destruct Hwp as (-> & Hk). injection Hstep as <- <-.
    assert (future st (record_call (CallGetattr m name) st)) as Hfut
      by (apply future_same_cache; [apply cache_of_record_call|assumption]).
    exists false, owes.
    split; [|split; [exact Hfut|split; [|split]]]; auto.
    all: try (rewrite lock_of_record_call; assumption).
    all: left; split; [apply cache_of_record_call|reflexivity].
Qed.

(** A caller that has not finished can move, unless it waits for the lock
    while holding nothing. *)
Lemma thread_can_step (p : prog Handle) held owes st :
  stable_wp p held owes returns_cls never_raises st ->
  ~ finished p ->
  (exists p' st', thread_step p st = Some (p', st')) \/
  (held = false /\ lock_of (lock_for c) st = true).
Proof.
  intros Hwp Hfin.
  destruct p as [a|e|l k|l k|c' key k|c' key k|c' key v k|name k|m name k];
    simpl in Hwp, Hfin |- *; try (exfalso; exact (Hfin I)).
  - destruct Hwp as (-> & -> & _).
    destruct (lock_of (lock_for c) st); [right; auto|left; eauto].
  - left. destruct (lock_of l st); eauto.
  - left. eauto.
  - left. destruct (cache_of c' st !! key); eauto.
  - left. eauto.
  - left. eauto.
  - left. eauto.
Qed.

Local Abbreviation pool_inv :=
  (pool_inv import_module getattr c typestring norm cls).

Lemma pool_inv_step cfg cfg' :
  pool_inv cfg -> pool_step cfg cfg' -> pool_inv cfg'.
Proof.
  intros (h1 & o1 & h2 & o2 & W1 & W2 & Hlock & Hexcl & G & Pend) Hstep.
  inversion Hstep as [p1 p1' p2 st st' H|p1 p2 p2' st st' H]; subst;
    simpl in *.
  - destruct (thread_step_wp p1 p1' h1 o1 h2 st st' W1 G Hlock Hexcl H)
      as (h1' & o1' & W1' & Hfut & Hlock' & Hexcl' & Hchg).
    exists h1', o1', h2, o2. simpl.
    split; [exact W1'|]. split.
    { eapply stable_wp_mono;
        eauto using returns_cls_stable, never_raises_stable. }
    split; [exact Hlock'|]. split; [exact Hexcl'|].
    split; [exact (future_good _ _ Hfut)|].
    intros Hts. destruct Hchg as [[Ec ->]|[->|Hn]]; auto.
    rewrite Ec in *. auto.
  - rewrite orb_comm in Hlock. rewrite andb_comm in Hexcl.
    destruct (thread_step_wp p2 p2' h2 o2 h1 st st' W2 G Hlock Hexcl H)
      as (h2' & o2' & W2' & Hfut & Hlock' & Hexcl' & Hchg).
    exists h1, o1, h2', o2'. simpl.
    split.
    { eapply stable_wp_mono;
        eauto using returns_cls_stable, never_raises_stable. }
    split; [exact W2'|].
    split; [rewrite orb_comm; exact Hlock'|].
    split; [rewrite andb_comm; exact Hexcl'|].
    split; [exact (future_good _ _ Hfut)|].
    intros Hts. destruct Hchg as [[Ec ->]|[->|Hn]]; auto.
    rewrite Ec in *. auto.
Qed.

Lemma pool_inv_rtc cfg cfg' :
  pool_inv cfg -> rtc pool_step cfg cfg' -> pool_inv cfg'.
Proof. intros H Hrtc. induction Hrtc; eauto using pool_inv_step. Qed.

Lemma finished_not_held (p : prog Handle) held owes st :
  stable_wp p held owes returns_cls never_raises st ->
  finished p -> held = false /\ owes = false /\ p = Ret cls /\
                cache_of c st !! typestring = Some cls.
Proof.
  destruct p; simpl; try contradiction.
  intros (-> & -> & -> & Hts) _. auto.
Qed.

Lemma finished_dec {A} (p : prog A) : finished p \/ ~ finished p.
Proof. destruct p; simpl; auto. Qed.

Lemma pool_inv_finished p1 p2 st :
  pool_inv ((p1, p2), st) -> finished p1 -> finished p2 ->
  p1 = Ret cls /\ p2 = Ret cls /\
  cache_of c st !! typestring = Some cls /\
  cache_of c st !! norm = Some cls.
Proof.
  intros (h1 & o1 & h2 & o2 & W1 & W2 & _ & _ & G & Pend) F1 F2.
  simpl in *.
  destruct (finished_not_held _ _ _ _ W1 F1) as (_ & -> & -> & Hts).
  destruct (finished_not_held _ _ _ _ W2 F2) as (_ & -> & -> & _).
  repeat split; auto.
  destruct Pend as [[v Hv]|[E|E]]; eauto; try discriminate.
  rewrite Hv. f_equal. destruct G as (_ & Hn & _). eauto.
Qed.

Lemma pool_inv_progress p1 p2 st :
  pool_inv ((p1, p2), st) -> ~ (finished p1 /\ finished p2) ->
  exists cfg, pool_step ((p1, p2), st) cfg.
Proof.
  intros (h1 & o1 & h2 & o2 & W1 & W2 & Hlock & Hexcl & G & _) Hnot.
  simpl in *.
  destruct (finished_dec p1) as [F1|N1].
  - assert (N2 : ~ finished p2) by tauto.
    destruct (thread_can_step p2 h2 o2 st W2 N2) as [(p' & st' & H)|[-> Hl]].
    + eexists. apply step_second. exact H.
    + destruct (finished_not_held _ _ _ _ W1 F1) as (-> & _).
      rewrite Hl in Hlock. discriminate Hlock.
  - destruct (thread_can_step p1 h1 o1 st W1 N1) as [(p' & st' & H)|[-> Hl]].
    + eexists. apply step_first. exact H.
    + rewrite Hl in Hlock. simpl in Hlock. subst h2.
      assert (N2 : ~ finished p2).
      { intros F2. destruct (finished_not_held _ _ _ _ W2 F2) as (E & _).
        discriminate E. }
      destruct (thread_can_step p2 true o2 st W2 N2) as [(p' & st' & H)|[E _]].
      * eexists. apply step_second. exact H.
      * discriminate E.
Qed.

End Scene.

(** The loader keeps the lock discipline on every type string. *)
Lemma lock_scoped_bind {A B} ph (p : prog A) (f : A -> prog B) :
  lock_scoped ph p -> (forall a, lock_scoped Unlocked (f a)) ->
  lock_scoped ph (bind p f).
Proof.
  intros Hp Hf. revert ph Hp.
  induction p as [a|e|l k IH|l k IH|c key k IH|c key k IH|c key v k IH
                 |name k IH|m name k IH]; intros ph Hp; simpl in *.
  - subst ph. apply Hf.
  - exact Hp.
  - destruct Hp as [-> Hk]. auto.
  - destruct Hp as [-> Hk]. auto.
  - destruct Hp as (-> & Ht & Hf'). auto.
  - destruct Hp as [-> Hk]. auto.
  - destruct Hp as [-> Hk]. auto.
  - destruct Hp as [-> Hk]. auto.
  - destruct Hp as [-> Hk]. auto.
Qed.

Lemma lock_scoped_try_except {A} ph (p : prog A) (catches : exn -> bool)
      (handler : prog A) :
  lock_scoped ph p -> lock_scoped Unlocked handler ->
  lock_scoped ph (try_except p catches handler).
Proof.
  intros Hp Hh. revert ph Hp.
  induction p as [a|e|l k IH|l k IH|c key k IH|c key k IH|c key v k IH
                 |name k IH|m name k IH]; intros ph Hp; simpl in *.
  - exact Hp.
  - subst ph. destruct (catches e); [exact Hh|reflexivity].
  - destruct Hp as [-> Hk]. auto.
  - destruct Hp as [-> Hk]. auto.
  - destruct Hp as (-> & Ht & Hf'). auto.
  - destruct Hp as [-> Hk]. auto.
  - destruct Hp as [-> Hk]. auto.
  - destruct Hp as [-> Hk]. auto.
  - destruct Hp as [-> Hk]. auto.
Qed.

Lemma lock_scoped_get_from_cache c key :
  lock_scoped Unlocked
    (_get_from_cache c (lock_for c) key : prog (option Handle)).
Proof. simpl. repeat split. Qed.

Lemma lock_scoped_add_to_cache c key v :
  lock_scoped Unlocked (_add_to_cache c (lock_for c) key v : prog unit).
Proof. simpl. repeat split. Qed.

Lemma lock_scoped_load_class modname subname classname :
  lock_scoped Unlocked (_load_class modname subname classname : prog Handle).
Proof.
  simpl. split; [reflexivity|]. intros [pypkg|cause]; simpl; [|reflexivity].
  split; [reflexivity|]. intros [v|cause]; reflexivity.
Qed.

Lemma lock_scoped_get_class typestring subname c :
  lock_scoped Unlocked
    (_get_class typestring subname c (lock_for c) : prog Handle).
Proof.
  unfold _get_class.
  apply lock_scoped_bind; [apply lock_scoped_get_from_cache|].
  intros [v|]; [reflexivity|].
  apply lock_scoped_bind; [destruct (_splittype typestring); reflexivity|].
  intros mc.
  apply lock_scoped_bind; [apply lock_scoped_get_from_cache|].
  intros [v|]; [reflexivity|].
  apply lock_scoped_bind; [apply lock_scoped_load_class|]. intros v.
  apply lock_scoped_bind; [apply lock_scoped_add_to_cache|]. intros _.
  apply lock_scoped_bind; [apply lock_scoped_add_to_cache|]. intros _.
  reflexivity.
Qed.

Lemma lock_scoped_get_class_for c typestring :
  lock_scoped Unlocked (get_class_for c typestring : prog Handle).
Proof.
  rewrite get_class_for_eq.
  apply lock_scoped_try_except; [|apply lock_scoped_get_class].
  unfold first_attempt. apply lock_scoped_bind.
  - destruct (first_subname c typestring); reflexivity.
  - intros subname. apply lock_scoped_get_class.
Qed.

(** Every run of two callers ends: each step moves one of them to one of
    its continuations, or to a raise. *)
Lemma thread_step_child {A} (p p' : prog A) st st' :
  thread_step p st = Some (p', st') -> child p' p \/ finished p'.
Proof.
  destruct p as [a|e|l k|l k|c key k|c key k|c key v k|name k|m name k];
    simpl; try discriminate.
  - destruct (lock_of l st); [discriminate|].
    intros [= <- <-]. left. constructor.
  - destruct (lock_of l st); intros [= <- <-];
      [left; constructor|right; exact I].
  - intros [= <- <-]. left. constructor.
  - destruct (cache_of c st !! key); intros [= <- <-];
      [left; constructor|right; exact I].
  - intros [= <- <-]. left. constructor.
  - intros [= <- <-]. left. constructor.
  - intros [= <- <-]. left. constructor.
Qed.

Lemma child_acc {A} (p : prog A) : Acc child p.
Proof.
  induction p as [a|e|l k IH|l k IH|c key k IH|c key k IH|c key v k IH
                 |name k IH|m name k IH];
    constructor; intros q Hq; inversion Hq; subst; auto.
Qed.

Lemma finished_no_step {A} (p : prog A) st : finished p -> thread_step p st = None.
Proof. destruct p; simpl; try contradiction; reflexivity. Qed.

Lemma sn_both_finished (p1 p2 : prog Handle) st :
  finished p1 -> finished p2 -> sn pool_step ((p1, p2), st).
Proof.
  intros F1 F2. constructor. intros cfg Hstep. unfold flip in Hstep.
  inversion Hstep as [? ? ? ? ? H|? ? ? ? ? H]; subst.
  - rewrite finished_no_step in H by assumption. discriminate H.
  - rewrite finished_no_step in H by assumption. discriminate H.
Qed.

Lemma sn_first_finished (p1 p2 : prog Handle) :
  finished p1 -> Acc child p2 -> forall st, sn pool_step ((p1, p2), st).
Proof.
  intros F1. induction 1 as [p2 _ IH]. intros st.
  constructor. intros cfg Hstep. unfold flip in Hstep.
  inversion Hstep as [? ? ? ? ? H|? ? ? ? ? H]; subst.
  - rewrite finished_no_step in H by assumption. discriminate H.
  - destruct (thread_step_child _ _ _ _ H) as [Hc|Hf].
    + apply IH. exact Hc.
    + apply sn_both_finished; assumption.
Qed.

Lemma sn_second_finished (p1 p2 : prog Handle) :
  finished p2 -> Acc child p1 -> forall st, sn pool_step ((p1, p2), st).
Proof.
  intros F2. induction 1 as [p1 _ IH]. intros st.
  constructor. intros cfg Hstep. unfold flip in Hstep.
  inversion Hstep as [? ? ? ? ? H|? ? ? ? ? H]; subst.
  - destruct (thread_step_child _ _ _ _ H) as [Hc|Hf].
    + apply IH. exact Hc.
    + apply sn_both_finished; assumption.
  - rewrite finished_no_step in H by assumption. discriminate H.
Qed.

Lemma pool_terminates (p1 p2 : prog Handle) st : sn pool_step ((p1, p2), st).
Proof.
  pose proof (child_acc p1) as H1. revert p2 st.
  induction H1 as [p1 H1 IH1]. intros p2.
  pose proof (child_acc p2) as H2.
  induction H2 as [p2 H2 IH2]. intros st.
  constructor. intros cfg Hstep. unfold flip in Hstep.
  inversion Hstep as [? ? ? ? ? H|? ? ? ? ? H]; subst.
  - destruct (thread_step_child _ _ _ _ H) as [Hc|Hf].
    + apply IH1. exact Hc.
    + apply sn_first_finished; [assumption|constructor; exact H2].
  - destruct (thread_step_child _ _ _ _ H) as [Hc|Hf].
    + apply IH2. exact Hc.
    + apply sn_second_finished; [assumption|constructor; exact H1].
Qed.

(** What a successful single-threaded resolution of an unseen type string
    tells about the import system. *)
Lemma load_then_cache_result typestring modname subname classname c st :
  fst (load_then_cache import_module getattr typestring modname subname
                       classname c st) =
  match load_result modname subname classname with
  | Ok v => Returned v
  | Err e => Raised e
  end.
Proof.
  unfold load_then_cache, load_result.
  destruct (import_module (modname +:+ "." +:+ subname)) as [pypkg|cause];
    [|reflexivity].
  destruct (getattr pypkg classname); reflexivity.
Qed.

Lemma load_result_error modname subname classname e :
  load_result modname subname classname = Err e ->
  module_or_class_error e = true.
Proof.
  unfold load_result.
  destruct (import_module (modname +:+ "." +:+ subname)) as [pypkg|cause].
  - destruct (getattr pypkg classname); [discriminate|].
    intros [= <-]. reflexivity.
  - intros [= <-]. reflexivity.
Qed.

Lemma sequential_success c typestring st cls :
  state_inv st ->
  cache_of c st !! typestring = None ->
  fst (run (get_class_for c typestring) st) = Returned cls ->
  exists subname modname classname,
    first_subname c typestring = Ok subname /\
    _splittype typestring = Ok (modname, classname) /\
    (cache_of c st !! (modname +:+ "/" +:+ classname) = None ->
     load_result modname subname classname = Ok cls \/
     exists e, load_result modname subname classname = Err e /\
               module_or_class_error e = true /\
               load_result modname (default_subname c) classname = Ok cls).
Proof.
  intros Hinv Hts Hrun.
  rewrite run_get_class_for in Hrun by (apply state_inv_locks; assumption).
  destruct (first_subname c typestring) as [subname|e]; [|discriminate].
  rewrite Hts in Hrun.
  destruct (_splittype typestring) as [[modname classname]|e]; [|discriminate].
  exists subname, modname, classname. repeat split. intros Hn.
  rewrite Hn in Hrun.
  pose proof (load_then_cache_result typestring modname subname classname
                                     c st) as H1.
  destruct (load_then_cache import_module getattr typestring modname subname
                            classname c st) as [[v|e|] st1].
  - simpl in Hrun, H1. injection Hrun as ->.
    destruct (load_result modname subname classname); [|discriminate].
    left. congruence.
  - simpl in H1.
    destruct (load_result modname subname classname) as [v|e'] eqn:E;
      [discriminate|].
    injection H1 as ->. right. exists e'.
    split; [reflexivity|]. split; [exact (load_result_error _ _ _ _ E)|].
    rewrite load_then_cache_result in Hrun.
    destruct (load_result modname (default_subname c) classname);
      congruence.
  - discriminate.
Qed.

(** C9: two callers resolve, at the same time, a type string that is not
    cached yet and that a single caller would resolve to [cls].  The
    loader keeps the lock discipline: a lock is taken for one lookup or one
    store and is never held during an import or a [getattr].  Every
    interleaving of the two calls ends; as long as a caller has not
    finished, some caller can move; and when both have finished, both have
    returned [cls] and the dict binds the type string and its normalised
    form to [cls], the class stored by every writer, the last one
    included. *)
Theorem concurrent_resolution c typestring st0 cls :
  reachable import_module getattr st0 ->
  cache_of c st0 !! typestring = None ->
  (forall modname classname,
     _splittype typestring = Ok (modname, classname) ->
     cache_of c st0 !! (modname +:+ "/" +:+ classname) = None) ->
  fst (run (get_class_for c typestring) st0) = Returned cls ->
  let call : prog Handle := get_class_for c typestring in
  lock_scoped Unlocked call /\
  sn pool_step ((call, call), st0) /\
  forall p1 p2 st,
    rtc pool_step ((call, call), st0) ((p1, p2), st) ->
    (finished p1 -> finished p2 ->
     p1 = Ret cls /\ p2 = Ret cls /\
     cache_of c st !! typestring = Some cls /\
     forall modname classname,
       _splittype typestring = Ok (modname, classname) ->
       cache_of c st !! (modname +:+ "/" +:+ classname) = Some cls) /\
    (~ (finished p1 /\ finished p2) ->
     exists cfg, pool_step ((p1, p2), st) cfg).
Proof.
  intros Hreach Hts Hnorm Hseq call.
  apply reachable_inv in Hreach.
  destruct (sequential_success c typestring st0 cls Hreach Hts Hseq)
    as (subname & modname & classname & Hsub & Hsplit & Hload).
  specialize (Hload (Hnorm _ _ Hsplit)).
  split; [apply lock_scoped_get_class_for|].
  split; [apply pool_terminates|].
  assert (Hinit : pool_inv import_module getattr c typestring
                    (modname +:+ "/" +:+ classname) cls ((call, call), st0)).
  { exists false, false, false, false. simpl.
    split; [exact (wp_get_class_for c typestring modname classname cls
                     Hsplit subname st0 Hsub Hload)|].
    split; [exact (wp_get_class_for c typestring modname classname cls
                     Hsplit subname st0 Hsub Hload)|].
    split; [apply state_inv_locks; assumption|].
    split; [reflexivity|].
    split.
    - unfold good. rewrite Hts, (Hnorm _ _ Hsplit).
      repeat split; try (intros v E; discriminate E).
      intros [v E]. discriminate E.
    - rewrite Hts. intros [v E]. discriminate E. }
  intros p1 p2 st Hrtc.
  pose proof (pool_inv_rtc c typestring modname classname cls _ _ Hinit Hrtc)
    as Hinv.
  split.
  - intros F1 F2.
    destruct (pool_inv_finished c typestring modname classname cls
                p1 p2 st Hinv F1 F2) as (-> & -> & Hts' & Hn').
    repeat split; auto.
    intros m' cn' Hs'. rewrite Hsplit in Hs'. injection Hs' as <- <-.
    exact Hn'.
  - apply (pool_inv_progress c typestring modname classname cls). exact Hinv.
Qed.

(** A schedule is one of the interleavings. *)
Lemma run_schedule_rtc schedule cfg :
  rtc pool_step cfg (run_schedule import_module getattr schedule cfg).
Proof.
  revert cfg. induction schedule as [|turn rest IH]; intros [[p1 p2] st];
    [apply rtc_refl|].
  simpl. destruct turn.
  - destruct (thread_step p1 st) as [[p1' st']|] eqn:E; [|apply IH].
    eapply rtc_l; [apply step_first; exact E|apply IH].
  - destruct (thread_step p2 st) as [[p2' st']|] eqn:E; [|apply IH].
    eapply rtc_l; [apply step_second; exact E|apply IH].
Qed.

End Concurrency.

(* ===================================================================== *)
(** ** Further properties of the parser and of the subname transform *)
(* ===================================================================== *)

Section ParserFacts.

(** X1: when [_splittype] accepts a type string it returns its first and
    its last non-empty segment; both are non-empty and free of slashes,
    and the normalised type string built from them is accepted with the
    same answer. *)
Theorem splittype_first_last typestring modname classname :
  _splittype typestring = Ok (modname, classname) ->
  modname = hd "" (splits typestring) /\
  classname = List.last (splits typestring) "" /\
  is_segment modname = true /\ is_segment classname = true /\
  _splittype (modname +:+ "/" +:+ classname) = Ok (modname, classname).
Proof.
  intros H.
  destruct (splittype_hd_last _ _ _ H) as [Hm Hc].
  destruct (splittype_segments _ _ _ H) as [Sm Sc].
  repeat split; auto. apply splittype_pair; assumption.
Qed.

Lemma splittype_of_splits ts1 ts2 mc :
  splits ts1 = splits ts2 -> _splittype ts1 = Ok mc -> _splittype ts2 = Ok mc.
Proof.
  intros E H. pose proof (splittype_same_splits ts1 ts2 E) as S.
  rewrite H in S. destruct (_splittype ts2); [congruence|contradiction].
Qed.

(** X2: a slash added in front, at the end or next to another slash
    changes neither the segments nor what [_splittype] returns. *)
Theorem splittype_extra_slashes a b mc :
  splits ("/" +:+ a) = splits a /\
  splits (a +:+ "/") = splits a /\
  splits (a +:+ "/" +:+ "/" +:+ b) = splits (a +:+ "/" +:+ b) /\
  (_splittype ("/" +:+ a) = Ok mc <-> _splittype a = Ok mc) /\
  (_splittype (a +:+ "/") = Ok mc <-> _splittype a = Ok mc) /\
  (_splittype (a +:+ "/" +:+ "/" +:+ b) = Ok mc <->
   _splittype (a +:+ "/" +:+ b) = Ok mc).
Proof.
  pose proof (splits_leading_slash a) as H1.
  pose proof (splits_trailing_slash a) as H2.
  pose proof (splits_double_slash a b) as H3.
  repeat split; auto; apply splittype_of_splits; auto.
Qed.

Lemma lower_char_not_upper c : PyStr.is_upper (PyStr.lower_char c) = false.
Proof.
  unfold PyStr.lower_char. destruct (PyStr.is_upper c) eqn:E; [|exact E].
  unfold PyStr.is_upper in *. apply andb_prop in E as [H1 H2].
  apply Nat.leb_le in H1, H2.
  rewrite nat_ascii_embedding by lia.
  apply andb_false_intro2. apply Nat.leb_gt. lia.
Qed.

Lemma no_upper_lower s : no_upper (PyStr.lower s) = true.
Proof.
  induction s as [|c t IH]; [reflexivity|]. simpl.
  rewrite lower_char_not_upper, IH. reflexivity.
Qed.

(** X3: the snake-case name has no uppercase letter, whatever the input. *)
Theorem camel_to_snake_case_lowercase camel :
  no_upper (camel_to_snake_case camel) = true.
Proof. unfold camel_to_snake_case. apply no_upper_lower. Qed.

Lemma lower_no_upper s : no_upper s = true -> PyStr.lower s = s.
Proof.
  induction s as [|c t IH]; [reflexivity|]. simpl.
  intros [Hc Ht]%andb_prop. apply negb_true_iff in Hc.
  unfold PyStr.lower_char. rewrite Hc, (IH Ht). reflexivity.
Qed.

Lemma underscored_no_upper prev s :
  no_upper s = true -> underscored prev s = s.
Proof.
  revert prev. induction s as [|c t IH]; intros prev; [reflexivity|]. simpl.
  intros [Hc Ht]%andb_prop. apply negb_true_iff in Hc.
  rewrite Hc, (IH _ Ht). reflexivity.
Qed.


(** X5: the two hidden services of an action, [base_SendGoal] and
    [base_GetResult], get the same subname, and the transform accepts
    both. *)
Theorem both_suffixes_same_subname subname base :
  _get_hidden_action_subname subname (base +:+ "_SendGoal") =
  _get_hidden_action_subname subname (base +:+ "_GetResult") /\
  exists hidden,
    _get_hidden_action_subname subname (base +:+ "_SendGoal") = Ok hidden.
Proof.
  unfold _get_hidden_action_subname, remove_autogenerated_suffixes.
  cbn [autogenerated_suffixes remove_suffixes].
  rewrite get_result_not_send_goal, !endswith_app, !drop_last_app.
  destruct (length (PyStr.split "._" subname) =? 2); eauto.
Qed.

End ParserFacts.

(* ===================================================================== *)
(** ** Further properties of a resolution *)
(* ===================================================================== *)

Section ResolutionFacts.

Context {PyModule Handle : Type}.
Variable import_module : string -> provided PyModule.
Variable getattr : PyModule -> string -> provided Handle.

Local Abbreviation state := (state PyModule Handle).
Local Abbreviation prog := (prog PyModule Handle).
Local Abbreviation run := (run import_module getattr).
Local Abbreviation reachable := (reachable import_module getattr).
Local Abbreviation load_result := (load_result import_module getattr).
Local Abbreviation load_then_cache := (load_then_cache import_module getattr).
Local Abbreviation provided_for := (provided_for import_module getattr).

Implicit Types (st : state) (c : cache_ref) (l : lock_ref).

(** X6: what [_add_to_cache] stores, [_get_from_cache] reads back; other
    keys read as before; both leave the lock free again. *)
Theorem cache_store_then_lookup c l key key' (v : Handle) st :
  lock_of l st = false ->
  run (bind (_add_to_cache c l key v)
            (fun _ => _get_from_cache c l key')) st =
  (Returned (if decide (key = key') then Some v else cache_of c st !! key'),
   set_item c key v st) /\
  lock_of l (set_item c key v st) = false.
Proof.
  intros Hl. rewrite lock_of_set_item. split; [|exact Hl].
  rewrite (run_bind import_module getattr),
    (run_add_to_cache import_module getattr) by assumption.
  rewrite (run_get_from_cache import_module getattr)
    by (rewrite lock_of_set_item; assumption).
  rewrite cache_of_set_item. f_equal. f_equal.
  destruct (decide (key = key')) as [->|N].
  - apply lookup_insert_eq.
  - apply lookup_insert_ne. assumption.
Qed.

(** The load with its fallback, as [run_get_class_for] has it. *)
Lemma fallback_load_facts typestring modname subname default classname c st :
  let L :=
    match load_then_cache typestring modname subname classname c st with
    | (Raised e, st1) =>
        load_then_cache typestring modname default classname c st1
    | other => other
    end in
  fst L =
    match load_result modname subname classname with
    | Ok v => Returned v
    | Err _ =>
        match load_result modname default classname with
        | Ok v => Returned v
        | Err e => Raised e
        end
    end /\
  (forall e, fst L = Raised e -> module_or_class_error e = true) /\
  (forall l, lock_of l (snd L) = lock_of l st) /\
  cache_of c (snd L) =
    match fst L with
    | Returned v =>
        <[modname +:+ "/" +:+ classname := v]>
          (<[typestring := v]> (cache_of c st))
    | _ => cache_of c st
    end /\
  (forall c', c' <> c -> cache_of c' (snd L) = cache_of c' st).
Proof.
  unfold load_then_cache, load_result.
  destruct (import_module (modname +:+ "." +:+ subname)) as [p1|cause1];
    [destruct (getattr p1 classname) as [v1|cause1]|];
    [|destruct (import_module (modname +:+ "." +:+ default)) as [p2|cause2];
      [destruct (getattr p2 classname) as [v2|cause2]|]..];
    cbn [fst snd]; repeat split;
    try (intros e [= <-]; reflexivity);
    try (intros e E; discriminate E);
    try (intros l0; destruct c, l0; reflexivity);
    try (intros c' N;
         rewrite ?cache_of_set_item_other, ?cache_of_record_call by congruence;
         reflexivity);
    rewrite ?cache_of_set_item, ?cache_of_record_call; reflexivity.
Qed.

Lemma srv_subname_error typestring e :
  srv_subname typestring = Err e ->
  e = InvalidActionInterfaceException (List.last (splits typestring) "").
Proof.
  unfold srv_subname.
  destruct (2 <? length (splits typestring)); [|discriminate].
  destruct (String.eqb (nth 1 (splits typestring) "") "action");
    [|discriminate].
  apply hidden_action_subname_error.
Qed.

Lemma free_lock_call_facts c typestring st :
  lock_of (lock_for c) st = false ->
  fst (run (get_class_for c typestring) st) <> Blocked /\
  (forall e,
     fst (run (get_class_for c typestring) st) = Raised e ->
     e = InvalidTypeStringException typestring \/
     module_or_class_error e = true \/
     (c = loaded_srvs_ref /\
      e = InvalidActionInterfaceException
            (List.last (splits typestring) ""))) /\
  (forall l, lock_of l (snd (run (get_class_for c typestring) st))
             = lock_of l st).
Proof.
  intros Hl. rewrite (run_get_class_for import_module getattr) by assumption.
  destruct (first_subname c typestring) as [subname|e] eqn:Hsub.
  2:{ repeat split; try (intros E; discriminate E).
      intros e' [= <-]. right. right.
      destruct c; [discriminate Hsub|].
      split; [reflexivity|exact (srv_subname_error _ _ Hsub)]. }
  destruct (cache_of c st !! typestring) as [cls|];
    [repeat split; intros; discriminate|].
  destruct (_splittype typestring) as [[modname classname]|e] eqn:Hsplit.
  2:{ repeat split; try (intros E; discriminate E).
      intros e' [= <-]. left. exact (splittype_error _ _ Hsplit). }
  destruct (cache_of c st !! (modname +:+ "/" +:+ classname)) as [cls|];
    [repeat split; intros; discriminate|].
  destruct (fallback_load_facts typestring modname subname (default_subname c)
                                classname c st) as (Hf & He & Hlk & _).
  cbv zeta in Hf, He, Hlk. split; [|split].
  - rewrite Hf. destruct (load_result modname subname classname);
      [intros E; discriminate E|].
    destruct (load_result modname (default_subname c) classname);
      intros E; discriminate E.
  - intros e E. right. left. exact (He e E).
  - exact Hlk.
Qed.

(** X7: a call whose lock is free does not block; what it raises is one
    of the module's exceptions, [InvalidActionInterfaceException] only for
    a service; and when it is over both locks are as they were. *)
Theorem call_with_free_lock c typestring st :
  lock_of (lock_for c) st = false ->
  fst (run (get_class_for c typestring) st) <> Blocked /\
  (forall e,
     fst (run (get_class_for c typestring) st) = Raised e ->
     e = InvalidTypeStringException typestring \/
     module_or_class_error e = true \/
     (c = loaded_srvs_ref /\
      e = InvalidActionInterfaceException
            (List.last (splits typestring) ""))) /\
  (forall l, lock_of l (snd (run (get_class_for c typestring) st))
             = lock_of l st).
Proof. apply free_lock_call_facts. Qed.

(** X8: resolving a type string whose normalised form is not cached, in
    a state the loader produced, returns the class the import system has
    under the inferred subname, else the class it has under the default
    subname, else raises the error of the default attempt; the dict gains
    the type string and its normalised form exactly when a class is
    returned. *)
Theorem uncached_resolution c typestring subname modname classname st :
  reachable st ->
  first_subname c typestring = Ok subname ->
  _splittype typestring = Ok (modname, classname) ->
  cache_of c st !! (modname +:+ "/" +:+ classname) = None ->
  fst (run (get_class_for c typestring) st) =
    match load_result modname subname classname with
    | Ok cls => Returned cls
    | Err _ =>
        match load_result modname (default_subname c) classname with
        | Ok cls => Returned cls
        | Err e => Raised e
        end
    end /\
  cache_of c (snd (run (get_class_for c typestring) st)) =
    match fst (run (get_class_for c typestring) st) with
    | Returned cls =>
        <[modname +:+ "/" +:+ classname := cls]>
          (<[typestring := cls]> (cache_of c st))
    | _ => cache_of c st
    end.
Proof.
  intros Hreach Hsub Hsplit Hn.
  apply (reachable_inv import_module getattr) in Hreach.
  rewrite (run_get_class_for_inv import_module getattr) by assumption.
  rewrite Hsub, Hsplit, Hn.
  destruct (fallback_load_facts typestring modname subname (default_subname c)
                                classname c st) as (Hf & _ & _ & Hc & _).
  split; [exact Hf|exact Hc].
Qed.


(** X10: the two kinds are separate.  A call leaves the dict and the
    lock of the other kind as they are, and its outcome depends on the
    state only through the dict and the lock of its own kind: a taken lock
    of the other kind does not make it wait. *)
Theorem kinds_are_separate c typestring st :
  (forall c', c' <> c ->
     cache_of c' (snd (run (get_class_for c typestring) st)) = cache_of c' st /\
     lock_of (lock_for c') (snd (run (get_class_for c typestring) st))
       = lock_of (lock_for c') st) /\
  (forall st',
     lock_of (lock_for c) st' = lock_of (lock_for c) st ->
     cache_of c st' = cache_of c st ->
     fst (run (get_class_for c typestring) st') =
     fst (run (get_class_for c typestring) st)).
Proof.
  split.
  - intros c' N.
    destruct (lock_of (lock_for c) st) eqn:Hl.
    { destruct (run_get_class_for_locked import_module getattr c typestring
                                         st Hl) as [->|[e ->]]; auto. }
    rewrite (run_get_class_for import_module getattr) by assumption.
    destruct (first_subname c typestring) as [subname|e]; [|auto].
    destruct (cache_of c st !! typestring) as [cls|]; [auto|].
    destruct (_splittype typestring) as [[modname classname]|e]; [|auto].
    destruct (cache_of c st !! (modname +:+ "/" +:+ classname)) as [cls|];
      [auto|].
    destruct (fallback_load_facts typestring modname subname
                (default_subname c) classname c st) as (_ & _ & Hlk & _ & Ho).
    split; [exact (Ho c' N)|apply Hlk].
  - intros st' Hlock Hcache.
    destruct (lock_of (lock_for c) st) eqn:Hl.
    { rewrite !get_class_for_eq, !(run_try_except import_module getattr)
        by reflexivity.
      unfold first_attempt. rewrite !(run_bind_lift import_module getattr).
      destruct (first_subname c typestring) as [subname|e] eqn:Hsub.
      - rewrite !(run_get_class_locked import_module getattr) by assumption.
        reflexivity.
      - destruct (first_subname_error _ _ _ Hsub) as [cn ->]. reflexivity. }
    rewrite !(run_get_class_for import_module getattr) by congruence.
    rewrite Hcache.
    destruct (first_subname c typestring) as [subname|e]; [|reflexivity].
    destruct (cache_of c st !! typestring) as [cls|]; [reflexivity|].
    destruct (_splittype typestring) as [[modname classname]|e];
      [|reflexivity].
    destruct (cache_of c st !! (modname +:+ "/" +:+ classname)) as [cls|];
      [reflexivity|].
    rewrite (proj1 (fallback_load_facts typestring modname subname
                      (default_subname c) classname c st')).
    rewrite (proj1 (fallback_load_facts typestring modname subname
                      (default_subname c) classname c st)).
    reflexivity.
Qed.

(** X11: a service type string that the hidden-action transform refuses
    fails at once, before the lock is taken and whatever the dict holds,
    with [InvalidActionInterfaceException] on its last segment, and no
    fallback is tried; a message resolution never raises that exception. *)
Theorem action_interface_fails_fast typestring st :
  (forall e,
     srv_subname typestring = Err e ->
     run (get_service_class typestring) st = (Raised e, st) /\
     e = InvalidActionInterfaceException
           (List.last (splits typestring) "")) /\
  (forall classname,
     fst (run (get_message_class typestring) st)
     <> Raised (InvalidActionInterfaceException classname)).
Proof.
  split.
  - intros e He. split; [|exact (srv_subname_error _ _ He)].
    change (@get_service_class PyModule Handle typestring)
      with (@get_class_for PyModule Handle loaded_srvs_ref typestring).
    rewrite get_class_for_eq, (run_try_except import_module getattr)
      by reflexivity.
    unfold first_attempt. rewrite (run_bind_lift import_module getattr).
    simpl first_subname. rewrite He, (srv_subname_error _ _ He). reflexivity.
  - intros classname.
    change (@get_message_class PyModule Handle typestring)
      with (@get_class_for PyModule Handle loaded_msgs_ref typestring).
    destruct (lock_of (lock_for loaded_msgs_ref) st) eqn:Hl.
    + rewrite get_class_for_eq, (run_try_except import_module getattr)
        by reflexivity.
      unfold first_attempt. simpl first_subname.
      rewrite (run_bind_lift import_module getattr),
        (run_get_class_locked import_module getattr) by assumption.
      intros E. discriminate E.
    + intros E.
      destruct (free_lock_call_facts loaded_msgs_ref typestring st Hl)
        as (_ & Hcls & _).
      destruct (Hcls _ E) as [H|[H|[H _]]]; discriminate H.
Qed.

Lemma provided_step c0 typestring st :
  state_inv st ->
  (forall c key cls, cache_of c st !! key = Some cls -> provided_for key cls) ->
  forall c key cls,
    cache_of c (snd (run (get_class_for c0 typestring) st)) !! key = Some cls ->
    provided_for key cls.
Proof.
  intros Hinv Hold c key cls.
  rewrite (run_get_class_for_inv import_module getattr) by assumption.
  destruct (first_subname c0 typestring) as [subname|e]; [|apply Hold].
  destruct (_splittype typestring) as [[modname classname]|e] eqn:Hsplit;
    [|apply Hold].
  destruct (cache_of c0 st !! (modname +:+ "/" +:+ classname)) as [cls'|];
    [apply Hold|].
  destruct (fallback_load_facts typestring modname subname
              (default_subname c0) classname c0 st) as (Hf & _ & _ & Hc & Ho).
  cbv zeta in Hf, Hc, Ho.
  destruct (decide (c = c0)) as [->|N]; [|rewrite (Ho c N); apply Hold].
  rewrite Hc, Hf.
  assert (Hstore : forall v sub,
             load_result modname sub classname = Ok v ->
             <[modname +:+ "/" +:+ classname := v]>
               (<[typestring := v]> (cache_of c0 st)) !! key = Some cls ->
             provided_for key cls).
  { intros v sub Hv Hkey.
    destruct (decide (key = modname +:+ "/" +:+ classname)) as [->|Nn].
    { rewrite lookup_insert_eq in Hkey. injection Hkey as <-.
      exists modname, classname, sub. split; [|exact Hv].
      exact (splittype_normalised _ _ _ Hsplit). }
    rewrite lookup_insert_ne in Hkey by congruence.
    destruct (decide (key = typestring)) as [->|Nt].
    { rewrite lookup_insert_eq in Hkey. injection Hkey as <-.
      exists modname, classname, sub. auto. }
    rewrite lookup_insert_ne in Hkey by congruence. eapply Hold; eauto. }
  destruct (load_result modname subname classname) as [v|e1] eqn:E1;
    [eapply Hstore; eauto|].
  destruct (load_result modname (default_subname c0) classname) as [v|e2] eqn:E2;
    [eapply Hstore; eauto|apply Hold].
Qed.

Lemma reachable_provided st :
  reachable st ->
  forall c key cls, cache_of c st !! key = Some cls -> provided_for key cls.
Proof.
  induction 1 as [|typestring st Hr IH|typestring st Hr IH].
  - intros [] key cls H; simpl in H; rewrite lookup_empty in H; discriminate H.
  - exact (provided_step loaded_msgs_ref typestring st
             (reachable_inv import_module getattr st Hr) IH).
  - exact (provided_step loaded_srvs_ref typestring st
             (reachable_inv import_module getattr st Hr) IH).
Qed.


(** X13: with exactly two segments the inferred subname is the default
    one, so the fallback repeats the first attempt: the outcome is the
    one of a single load with the default subname, and when that load
    fails the module has been imported twice for nothing. *)
Theorem two_segment_fallback_repeats c typestring st :
  reachable st ->
  length (splits typestring) = 2 ->
  (forall modname classname,
     _splittype typestring = Ok (modname, classname) ->
     cache_of c st !! (modname +:+ "/" +:+ classname) = None) ->
  exists modname classname,
    _splittype typestring = Ok (modname, classname) /\
    fst (run (get_class_for c typestring) st) =
      match load_result modname (default_subname c) classname with
      | Ok cls => Returned cls
      | Err e => Raised e
      end /\
    (forall e,
       load_result modname (default_subname c) classname = Err e ->
       imports (calls (snd (run (get_class_for c typestring) st)))
       = imports (calls st) + 2).
Proof.
  intros Hr Hlen Hmiss.
  apply (reachable_inv import_module getattr) in Hr.
  assert (exists modname classname, splits typestring = [modname; classname])
    as (modname & classname & Hsplits).
  { destruct (splits typestring) as [|s0 [|s1 [|s2 rest]]]; try discriminate.
    eauto. }
  assert (Hsplit : _splittype typestring = Ok (modname, classname))
    by (unfold _splittype; rewrite Hsplits; reflexivity).
  assert (Hsub : first_subname c typestring = Ok (default_subname c))
    by (destruct c; simpl; unfold inferred_subname, srv_subname;
        rewrite Hsplits; reflexivity).
  exists modname, classname. split; [exact Hsplit|].
  rewrite (run_get_class_for_inv import_module getattr) by assumption.
  rewrite Hsub, Hsplit, (Hmiss _ _ Hsplit).
  destruct (fallback_load_facts typestring modname (default_subname c)
              (default_subname c) classname c st) as (Hf & _).
  cbv zeta in Hf. split.
  - rewrite Hf.
    destruct (load_result modname (default_subname c) classname); reflexivity.
  - intros e He.
    pose proof (load_then_cache_result import_module getattr typestring
                  modname (default_subname c) classname c st) as H1.
    pose proof (load_imports import_module getattr typestring modname
                  (default_subname c) classname c st) as I1.
    fold load_result in H1. rewrite He in H1.
    destruct (load_then_cache typestring modname (default_subname c)
                              classname c st) as [[v|e'|] st1];
      simpl in H1; try discriminate H1.
    simpl in I1. rewrite (load_imports import_module getattr), I1. lia.
Qed.

(** X16: a process that only calls the two entry points, one call after
    the other, finds both locks free before every call, also after calls
    that raised: no call of it ever blocks. *)
Theorem sequential_calls_never_block c typestring st :
  reachable st ->
  (forall l, lock_of l st = false) /\
  fst (run (get_class_for c typestring) st) <> Blocked.
Proof.
  intros Hr. apply (reachable_inv import_module getattr) in Hr.
  split; [intros l; exact (state_inv_locks st l Hr)|].
  apply free_lock_call_facts. exact (state_inv_locks st _ Hr).
Qed.

(** A call that returned a class returns it again and changes nothing. *)
Lemma rerun_returned c typestring st (cls : Handle) st1 :
  run (get_class_for c typestring) st = (Returned cls, st1) ->
  run (get_class_for c typestring) st1 = (Returned cls, st1).
Proof.
  intros Hrun.
  destruct (returned_cases import_module getattr _ _ _ _ _ Hrun)
    as (Hl & [subname Hsub] & Hcases).
  destruct Hcases as [[Hts ->]|(Hts & mn & cn & Hsplit & Hcases)].
  - rewrite (run_get_class_for import_module getattr), Hsub, Hts
      by assumption.
    reflexivity.
  - destruct Hcases as [[Hn ->]|(Hn & Hc & _ & Hlm & Hls)].
    + rewrite (run_get_class_for import_module getattr), Hsub, Hts, Hsplit, Hn
        by assumption.
      reflexivity.
    + rewrite (run_get_class_for import_module getattr), Hsub
        by (rewrite (locks_eq _ st st1); assumption).
      rewrite Hc, lookup_after_store. reflexivity.
Qed.

End ResolutionFacts.

(* ===================================================================== *)
(** ** Instances of the resolved classes *)
(* ===================================================================== *)

Section InstanceFacts.

Context {PyModule Handle Instance : Type}.
Variable import_module : string -> provided PyModule.
Variable getattr : PyModule -> string -> provided Handle.
Variable construct : Handle -> provided Instance.
Variable request_of : Handle -> provided Instance.
Variable response_of : Handle -> provided Instance.

Local Abbreviation run := (run import_module getattr).
Local Abbreviation get_message_instance :=
  (get_message_instance import_module getattr construct).
Local Abbreviation get_service_request_instance :=
  (get_service_request_instance import_module getattr request_of).
Local Abbreviation get_service_response_instance :=
  (get_service_response_instance import_module getattr response_of).


End InstanceFacts.

(* ===================================================================== *)
(** ** Any two calls at once *)
(* ===================================================================== *)

Section AnyTwoCalls.

Context {PyModule Handle : Type}.
Variable import_module : string -> provided PyModule.
Variable getattr : PyModule -> string -> provided Handle.

Local Abbreviation state := (state PyModule Handle).
Local Abbreviation prog := (prog PyModule Handle).
Local Abbreviation thread_step := (thread_step import_module getattr).
Local Abbreviation pool_step := (pool_step import_module getattr).
Local Abbreviation locks_inv := (@locks_inv PyModule Handle).

Implicit Types (st : state) (ph : lock_phase).

Lemma raises_only_bind {A B} P (p : prog A) (f : A -> prog B) :
  raises_only P p -> (forall a, raises_only P (f a)) ->
  raises_only P (bind p f).
Proof.
  intros Hp Hf.
  induction p as [a|e|l k IH|l k IH|c key k IH|c key k IH|c key v k IH
                 |name k IH|m name k IH]; simpl in *; auto.
Qed.

Lemma raises_only_try_except {A} P (p : prog A) (catches : exn -> bool)
      (handler : prog A) :
  raises_only P p -> raises_only P handler ->
  raises_only P (try_except p catches handler).
Proof.
  intros Hp Hh.
  induction p as [a|e|l k IH|l k IH|c key k IH|c key k IH|c key v k IH
                 |name k IH|m name k IH]; simpl in *; auto.
  destruct (catches e); auto.
Qed.

Lemma raises_only_get_class typestring subname c l :
  raises_only module_exception
    (_get_class typestring subname c l : prog Handle).
Proof.
  unfold _get_class.
  apply raises_only_bind; [simpl; intros []; simpl; auto|].
  intros [v|]; [exact I|].
  apply raises_only_bind.
  { destruct (_splittype typestring) as [mc|e] eqn:E; [exact I|].
    rewrite (splittype_error _ _ E). reflexivity. }
  intros mc.
  apply raises_only_bind; [simpl; intros []; simpl; auto|].
  intros [v|]; [exact I|].
  apply raises_only_bind.
  { simpl. intros [pypkg|cause]; simpl; [|reflexivity].
    intros [v|cause]; simpl; reflexivity. }
  intros v.
  apply raises_only_bind; [exact I|]. intros _.
  apply raises_only_bind; [exact I|]. intros _. exact I.
Qed.

Lemma raises_only_get_class_for c typestring :
  raises_only module_exception (get_class_for c typestring : prog Handle).
Proof.
  rewrite get_class_for_eq.
  apply raises_only_try_except; [|apply raises_only_get_class].
  unfold first_attempt. apply raises_only_bind.
  - destruct (first_subname c typestring) as [s0|e] eqn:E; [exact I|].
    destruct (first_subname_error _ _ _ E) as [cn ->]. reflexivity.
  - intros subname. apply raises_only_get_class.
Qed.

Lemma lock_of_set_lock_other l l0 b st :
  l <> l0 -> lock_of l0 (set_lock l b st) = lock_of l0 st.
Proof. destruct l, l0; intros N; try reflexivity; congruence. Qed.

Lemma grows_refl st :
  forall c key, is_Some (cache_of c st !! key) -> is_Some (cache_of c st !! key).
Proof. auto. Qed.

(** One step of a caller that keeps the lock discipline. *)
Lemma thread_step_locks (p p' : prog Handle) ph other st st' :
  lock_scoped ph p ->
  raises_only module_exception p ->
  tested_present ph st ->
  (forall l, lock_of l st = holds ph l || holds other l) ->
  (forall l, holds ph l && holds other l = false) ->
  thread_step p st = Some (p', st') ->
  exists ph',
    lock_scoped ph' p' /\
    raises_only module_exception p' /\
    tested_present ph' st' /\
    (forall l, lock_of l st' = holds ph' l || holds other l) /\
    (forall l, holds ph' l && holds other l = false) /\
    (forall c key, is_Some (cache_of c st !! key) ->
                   is_Some (cache_of c st' !! key)).
Proof.
  intros Hscoped Hraises Htested Hlocks Hexcl Hstep.
  destruct p as [a|e|l k|l k|c key k|c key k|c key v k|name k|m name k];
    simpl in Hscoped, Hraises, Hstep; try discriminate.
  - destruct Hscoped as [-> Hk].
    destruct (lock_of l st) eqn:Hl; [discriminate|].
    injection Hstep as <- <-.
    pose proof (Hlocks l) as Hother. rewrite Hl in Hother. simpl in Hother.
    exists (Fresh l). split; [exact Hk|]. split; [exact Hraises|].
    split; [exact I|]. split; [|split].
    + intros l0. simpl. destruct (decide (l = l0)) as [<-|N].
      * rewrite lock_of_set_lock, bool_decide_eq_true_2 by reflexivity.
        reflexivity.
      * rewrite lock_of_set_lock_other, bool_decide_eq_false_2 by assumption.
        rewrite Hlocks. reflexivity.
    + intros l0. simpl. destruct (decide (l = l0)) as [<-|N].
      * rewrite <- Hother. apply andb_false_r.
      * rewrite bool_decide_eq_false_2 by assumption. reflexivity.
    + intros c key H. rewrite cache_of_set_lock. exact H.
  - destruct Hscoped as [-> Hk].
    pose proof (Hlocks l) as Hl. simpl in Hl.
    rewrite bool_decide_eq_true_2 in Hl by reflexivity. simpl in Hl.
    rewrite Hl in Hstep. injection Hstep as <- <-.
    pose proof (Hexcl l) as Hother. simpl in Hother.
    rewrite bool_decide_eq_true_2 in Hother by reflexivity. simpl in Hother.
    exists Unlocked. split; [exact Hk|]. split; [exact Hraises|].
    split; [exact I|]. split; [|split].
    + intros l0. simpl. destruct (decide (l = l0)) as [<-|N].
      * rewrite lock_of_set_lock. symmetry. exact Hother.
      * rewrite lock_of_set_lock_other by assumption.
        rewrite Hlocks. simpl. rewrite bool_decide_eq_false_2 by assumption.
        reflexivity.
    + reflexivity.
    + intros c key H. rewrite cache_of_set_lock. exact H.
  - destruct Hscoped as (-> & Ht & Hf). injection Hstep as <- <-.
    destruct (cache_of c st !! key) as [v|] eqn:Hv.
    + rewrite bool_decide_eq_true_2 by eauto.
      exists (Tested (lock_for c) c key).
      split; [exact Ht|]. split; [apply Hraises|].
      split; [simpl; rewrite Hv; eauto|]. auto.
    + rewrite bool_decide_eq_false_2 by (intros [? ?]; discriminate).
      exists (Used (lock_for c)).
      split; [exact Hf|]. split; [apply Hraises|].
      split; [exact I|]. auto.
  - destruct Hscoped as [-> Hk]. simpl in Htested.
    destruct Htested as [v Hv]. rewrite Hv in Hstep.
    injection Hstep as <- <-.
    exists (Used (lock_for c)).
    split; [apply Hk|]. split; [apply Hraises|]. split; [exact I|]. auto.
  - destruct Hscoped as [-> Hk]. injection Hstep as <- <-.
    exists (Used (lock_for c)).
    split; [exact Hk|]. split; [exact Hraises|]. split; [exact I|].
    split; [|split].
    + intros l0. rewrite lock_of_set_item. apply Hlocks.
    + exact Hexcl.
    + intros c0 key0 H. destruct (decide (c = c0)) as [<-|N].
      * rewrite cache_of_set_item.
        destruct (decide (key = key0)) as [<-|Nk].
        -- rewrite lookup_insert_eq. eauto.
        -- rewrite lookup_insert_ne by assumption. exact H.
      * rewrite cache_of_set_item_other by assumption. exact H.
  - destruct Hscoped as [-> Hk]. injection Hstep as <- <-.
    exists Unlocked.
    split; [apply Hk|]. split; [apply Hraises|]. split; [exact I|].
    split; [|split].
    + intros l0. rewrite lock_of_record_call. apply Hlocks.
    + exact Hexcl.
    + intros c0 key0 H. rewrite cache_of_record_call. exact H.
  - destruct Hscoped as [-> Hk]. injection Hstep as <- <-.
    exists Unlocked.
    split; [apply Hk|]. split; [apply Hraises|]. split; [exact I|].
    split; [|split].
    + intros l0. rewrite lock_of_record_call. apply Hlocks.
    + exact Hexcl.
    + intros c0 key0 H. rewrite cache_of_record_call. exact H.
Qed.

Lemma tested_present_grows ph st st' :
  (forall c key, is_Some (cache_of c st !! key) ->
                 is_Some (cache_of c st' !! key)) ->
  tested_present ph st -> tested_present ph st'.
Proof. intros H. destruct ph; simpl; auto. Qed.

Lemma locks_inv_step cfg cfg' :
  locks_inv cfg -> pool_step cfg cfg' -> locks_inv cfg'.
Proof.
  intros (ph1 & ph2 & S1 & S2 & R1 & R2 & Hlocks & Hexcl & T1 & T2) Hstep.
  inversion Hstep as [p1 p1' p2 st st' H|p1 p2 p2' st st' H]; subst;
    simpl in *.
  - destruct (thread_step_locks p1 p1' ph1 ph2 st st' S1 R1 T1 Hlocks Hexcl H)
      as (ph1' & S1' & R1' & T1' & Hlocks' & Hexcl' & Hgrow).
    exists ph1', ph2. simpl.
    repeat (split; [assumption|]).
    exact (tested_present_grows ph2 st st' Hgrow T2).
  - assert (Hlocks2 : forall l, lock_of l st = holds ph2 l || holds ph1 l)
      by (intros l; rewrite orb_comm; apply Hlocks).
    assert (Hexcl2 : forall l, holds ph2 l && holds ph1 l = false)
      by (intros l; rewrite andb_comm; apply Hexcl).
    destruct (thread_step_locks p2 p2' ph2 ph1 st st' S2 R2 T2 Hlocks2 Hexcl2 H)
      as (ph2' & S2' & R2' & T2' & Hlocks' & Hexcl' & Hgrow).
    exists ph1, ph2'. simpl.
    split; [assumption|]. split; [assumption|].
    split; [assumption|]. split; [assumption|].
    split; [intros l; rewrite orb_comm; apply Hlocks'|].
    split; [intros l; rewrite andb_comm; apply Hexcl'|].
    split; [exact (tested_present_grows ph1 st st' Hgrow T1)|assumption].
Qed.

Lemma locks_inv_rtc cfg cfg' :
  locks_inv cfg -> rtc pool_step cfg cfg' -> locks_inv cfg'.
Proof. intros H Hrtc. induction Hrtc; eauto using locks_inv_step. Qed.

Lemma finished_unlocked {A} ph (p : prog A) :
  lock_scoped ph p -> finished p -> ph = Unlocked.
Proof. destruct p; simpl; try contradiction; auto. Qed.

(** A caller that has not finished moves, unless it stands, holding
    nothing, before a lock that is taken. *)
Lemma scoped_can_step (p : prog Handle) ph st :
  lock_scoped ph p -> ~ finished p ->
  (exists p' st', thread_step p st = Some (p', st')) \/
  (ph = Unlocked /\ exists l, lock_of l st = true).
Proof.
  intros Hs Hfin.
  destruct p as [a|e|l k|l k|c key k|c key k|c key v k|name k|m name k];
    simpl in Hs, Hfin |- *; try (exfalso; exact (Hfin I)).
  - destruct Hs as [-> _].
    destruct (lock_of l st) eqn:E; [right; eauto|left; eauto].
  - left. destruct (lock_of l st); eauto.
  - left. eauto.
  - left. destruct (cache_of c st !! key); eauto.
  - left. eauto.
  - left. eauto.
  - left. eauto.
Qed.

Lemma holds_unlocked_other ph1 ph2 st l :
  (forall l, lock_of l st = holds ph1 l || holds ph2 l) ->
  ph1 = Unlocked -> lock_of l st = true -> ph2 <> Unlocked.
Proof.
  intros Hlocks -> Hl E. subst ph2. rewrite Hlocks in Hl. discriminate Hl.
Qed.

(** X15: any two calls of the entry points, on any type strings, started
    with both locks free and interleaved in any way: the run ends; while
    a caller has not finished some caller can move, so the two never
    deadlock; a caller that has raised has raised one of the module's
    exceptions, never the [KeyError] of a failed dict read or the
    [RuntimeError] of a lock released twice; and when both have finished
    both locks are free. *)
Theorem any_two_calls c1 typestring1 c2 typestring2 st0 :
  (forall l, lock_of l st0 = false) ->
  let call1 : prog Handle := get_class_for c1 typestring1 in
  let call2 : prog Handle := get_class_for c2 typestring2 in
  sn pool_step ((call1, call2), st0) /\
  forall p1 p2 st,
    rtc pool_step ((call1, call2), st0) ((p1, p2), st) ->
    (~ (finished p1 /\ finished p2) ->
     exists cfg, pool_step ((p1, p2), st) cfg) /\
    (forall e, p1 = Raise e \/ p2 = Raise e -> module_exception e = true) /\
    (finished p1 -> finished p2 -> forall l, lock_of l st = false).
Proof.
  intros Hfree call1 call2.
  split; [apply pool_terminates|].
  assert (Hinit : locks_inv ((call1, call2), st0)).
  { exists Unlocked, Unlocked. simpl.
    split; [apply lock_scoped_get_class_for|].
    split; [apply lock_scoped_get_class_for|].
    split; [apply raises_only_get_class_for|].
    split; [apply raises_only_get_class_for|]. auto. }
  intros p1 p2 st Hrtc.
  destruct (locks_inv_rtc _ _ Hinit Hrtc)
    as (ph1 & ph2 & S1 & S2 & R1 & R2 & Hlocks & Hexcl & T1 & T2).
  simpl in *. split; [|split].
  - intros Hnot.
    assert (Hlocks2 : forall l, lock_of l st = holds ph2 l || holds ph1 l)
      by (intros l; rewrite orb_comm; apply Hlocks).
    destruct (finished_dec p1) as [F1|N1].
    + assert (N2 : ~ finished p2) by tauto.
      destruct (scoped_can_step p2 ph2 st S2 N2)
        as [(p' & st' & H)|(E2 & l & Hl)].
      * eexists. apply step_second. exact H.
      * exfalso.
        apply (holds_unlocked_other ph2 ph1 st l Hlocks2 E2 Hl).
        exact (finished_unlocked ph1 p1 S1 F1).
    + destruct (scoped_can_step p1 ph1 st S1 N1)
        as [(p' & st' & H)|(E1 & l & Hl)].
      * eexists. apply step_first. exact H.
      * pose proof (holds_unlocked_other ph1 ph2 st l Hlocks E1 Hl) as Hheld.
        assert (N2 : ~ finished p2)
          by (intros F2; apply Hheld; exact (finished_unlocked ph2 p2 S2 F2)).
        destruct (scoped_can_step p2 ph2 st S2 N2)
          as [(p' & st' & H)|(E2 & _)].
        -- eexists. apply step_second. exact H.
        -- contradiction.
  - intros e [-> | ->]; [exact R1|exact R2].
  - intros F1 F2 l.
    rewrite Hlocks, (finished_unlocked ph1 p1 S1 F1),
      (finished_unlocked ph2 p2 S2 F2).
    reflexivity.
Qed.

End AnyTwoCalls.

(* ===================================================================== *)
(** ** The properties on the stand-in process *)
(* ===================================================================== *)




Lemma malformed_or_failed_leaves_cache_witness :
  run test_import test_getattr (get_message_class "pkg") initial_state
    = (Raised (InvalidTypeStringException "pkg"), initial_state) /\
  _loaded_msgs (snd (run test_import test_getattr
                        (get_message_class "pkg/Nope") initial_state))
    = _loaded_msgs (@initial_state nat nat) /\
  _loaded_srvs (snd (run test_import test_getattr
                        (get_message_class "pkg/Nope") initial_state))
    = _loaded_srvs (@initial_state nat nat).
Proof.
  split.
  - apply (proj1 (malformed_or_failed_leaves_cache test_import test_getattr
                    loaded_msgs_ref "pkg" initial_state)).
    + reflexivity.
    + reflexivity.
    + exists "msg". reflexivity.
    + vm_compute. lia.
    + vm_compute. lia.
    + vm_compute. intros [E _]. lia.
  - apply (proj2 (malformed_or_failed_leaves_cache test_import test_getattr
                    loaded_msgs_ref "pkg/Nope" initial_state)
             (InvalidClassException "pkg" "msg" "Nope" "AttributeError")).
    vm_compute. reflexivity.
Defined.

Lemma hidden_action_subname_spec_witness :
  _get_hidden_action_subname "action._fibonacci" "Fibonacci_SendGoal"
    = Ok "action._fibonacci" /\
  _get_hidden_action_subname "action" "NavigateToPose_SendGoal"
    = Ok ("action" +:+ "._" +:+ camel_to_snake_spec "NavigateToPose") /\
  _get_hidden_action_subname "action" "Fibonacci"
    = Err (InvalidActionInterfaceException "Fibonacci").
Proof.
  split; [|split].
  - apply (proj1 (hidden_action_subname_spec "action._fibonacci"
                    "Fibonacci_SendGoal")).
    reflexivity.
  - apply (proj1 (proj2 (hidden_action_subname_spec "action"
                           "NavigateToPose_SendGoal")))
      with (suffix := "_SendGoal").
    + vm_compute. lia.
    + left. reflexivity.
    + reflexivity.
  - apply (proj1 (proj2 (proj2 (hidden_action_subname_spec "action"
                                  "Fibonacci")))).
    + vm_compute. lia.
    + intros base E. pose proof (endswith_app base "_SendGoal") as H.
      rewrite <- E in H. vm_compute in H. discriminate H.
    + intros base E. pose proof (endswith_app base "_GetResult") as H.
      rewrite <- E in H. vm_compute in H. discriminate H.
Defined.





Lemma hidden_action_transform_applies_witness :
  (get_service_class "pkg/action/Foo_SendGoal" : prog nat nat nat) =
  try_except
    (bind (lift (_get_hidden_action_subname "action" "Foo_SendGoal"))
          (fun subname =>
             _get_class "pkg/action/Foo_SendGoal" subname
                        loaded_srvs_ref srvs_lock_ref))
    module_or_class_error
    (_get_class "pkg/action/Foo_SendGoal" "srv" loaded_srvs_ref srvs_lock_ref)
  /\
  (get_service_class "pkg/Sub/Cls" : prog nat nat nat) =
  try_except
    (_get_class "pkg/Sub/Cls" (inferred_subname "srv" "pkg/Sub/Cls")
                loaded_srvs_ref srvs_lock_ref)
    module_or_class_error
    (_get_class "pkg/Sub/Cls" "srv" loaded_srvs_ref srvs_lock_ref).
Proof.
  split.
  - apply (proj1 (@hidden_action_transform_applies nat nat
                    "pkg/action/Foo_SendGoal")).
    + vm_compute. lia.
    + reflexivity.
  - apply (proj2 (@hidden_action_transform_applies nat nat "pkg/Sub/Cls")).
    right. vm_compute. intros E. discriminate E.
Defined.

(** C2 as stated fails: the three-segment ["pkg/action/Foo_SendGoal"] has
    fewer than four segments, yet the module imported is the hidden
    [pkg.action._foo], not the inferred [pkg.action]; and the three-segment
    ["pkg/action/Cls"] is refused by the transform. *)
Lemma three_segment_action_transformed :
  length (splits "pkg/action/Foo_SendGoal") = 3 /\
  inferred_subname "srv" "pkg/action/Foo_SendGoal" = "action" /\
  srv_subname "pkg/action/Foo_SendGoal" = Ok "action._foo" /\
  calls (snd (run test_import test_getattr
                  (get_service_class "pkg/action/Foo_SendGoal") initial_state))
    = [CallGetattr 3 "Foo_SendGoal"; CallImport "pkg.action._foo"] /\
  run test_import test_getattr (get_service_class "pkg/action/Cls")
      initial_state
    = (Raised (InvalidActionInterfaceException "Cls"), initial_state).
Proof. repeat split; vm_compute; reflexivity. Qed.

Lemma concurrent_resolution_witness :
  let call : prog nat nat nat := get_class_for loaded_msgs_ref "pkg/msg/Cls" in
  lock_scoped Unlocked call /\
  sn (pool_step test_import test_getattr) ((call, call), initial_state) /\
  forall p1 p2 st,
    rtc (pool_step test_import test_getattr)
        ((call, call), initial_state) ((p1, p2), st) ->
    (finished p1 -> finished p2 ->
     p1 = Ret 11 /\ p2 = Ret 11 /\
     cache_of loaded_msgs_ref st !! "pkg/msg/Cls" = Some 11 /\
     forall modname classname,
       _splittype "pkg/msg/Cls" = Ok (modname, classname) ->
       cache_of loaded_msgs_ref st !! (modname +:+ "/" +:+ classname)
         = Some 11) /\
    (~ (finished p1 /\ finished p2) ->
     exists cfg, pool_step test_import test_getattr ((p1, p2), st) cfg).
Proof.
  apply (concurrent_resolution test_import test_getattr loaded_msgs_ref
           "pkg/msg/Cls" initial_state 11).
  - apply reachable_init.
  - reflexivity.
  - intros modname classname _. apply lookup_empty.
  - vm_compute. reflexivity.
Defined.

(** An interleaving in which both callers miss the dict, both import, and
    the second store overwrites the first with the same class. *)
Example both_callers_load :
  let call : prog nat nat nat := get_class_for loaded_msgs_ref "pkg/msg/Cls" in
  let schedule :=
    repeat true 6 ++ repeat false 6 ++ repeat true 8 ++ repeat false 8 in
  let final :=
    run_schedule test_import test_getattr schedule
                 ((call, call), initial_state) in
  fst final = (Ret 11, Ret 11) /\
  calls (snd final) =
    [CallGetattr 1 "Cls"; CallImport "pkg.msg";
     CallGetattr 1 "Cls"; CallImport "pkg.msg"] /\
  _loaded_msgs (snd final) !! "pkg/msg/Cls" = Some 11 /\
  _loaded_msgs (snd final) !! "pkg/Cls" = Some 11.
Proof. repeat split; vm_compute; reflexivity. Qed.

Lemma splittype_first_last_witness :
  _splittype "/pkg/msg//Cls" = Ok ("pkg", "Cls") /\
  "pkg" = hd "" (splits "/pkg/msg//Cls") /\
  "Cls" = List.last (splits "/pkg/msg//Cls") "" /\
  is_segment "pkg" = true /\ is_segment "Cls" = true /\
  _splittype ("pkg" +:+ "/" +:+ "Cls") = Ok ("pkg", "Cls").
Proof.
  split; [reflexivity|].
  apply (splittype_first_last "/pkg/msg//Cls" "pkg" "Cls"). reflexivity.
Defined.


Lemma cache_store_then_lookup_witness :
  run test_import test_getattr
      (bind (_add_to_cache loaded_msgs_ref msgs_lock_ref "a/B" 7)
            (fun _ => _get_from_cache loaded_msgs_ref msgs_lock_ref "a/B"))
      initial_state
  = (Returned (if decide ("a/B" = "a/B") then Some 7
               else cache_of loaded_msgs_ref (@initial_state nat nat) !! "a/B"),
     set_item loaded_msgs_ref "a/B" 7 initial_state) /\
  lock_of msgs_lock_ref (set_item loaded_msgs_ref "a/B" 7 (@initial_state nat nat))
  = false.
Proof.
  apply (cache_store_then_lookup test_import test_getattr loaded_msgs_ref
           msgs_lock_ref "a/B" "a/B" 7 initial_state).
  reflexivity.
Defined.

Lemma call_with_free_lock_witness :
  fst (run test_import test_getattr
           (get_class_for loaded_srvs_ref "pkg/action/Cls") initial_state)
  <> Blocked /\
  (forall e,
     fst (run test_import test_getattr
              (get_class_for loaded_srvs_ref "pkg/action/Cls") initial_state)
     = Raised e ->
     e = InvalidTypeStringException "pkg/action/Cls" \/
     module_or_class_error e = true \/
     (loaded_srvs_ref = loaded_srvs_ref /\
      e = InvalidActionInterfaceException
            (List.last (splits "pkg/action/Cls") ""))) /\
  (forall l,
     lock_of l (snd (run test_import test_getattr
                         (get_class_for loaded_srvs_ref "pkg/action/Cls")
                         initial_state))
     = lock_of l (@initial_state nat nat)).
Proof.
  apply (call_with_free_lock test_import test_getattr loaded_srvs_ref
           "pkg/action/Cls" initial_state).
  reflexivity.
Defined.

Lemma uncached_resolution_witness :
  fst (run test_import test_getattr
           (get_class_for loaded_srvs_ref "pkg/Sub/Cls") initial_state) =
    match load_result test_import test_getattr "pkg" "Sub" "Cls" with
    | Ok cls => Returned cls
    | Err _ =>
        match load_result test_import test_getattr "pkg"
                          (default_subname loaded_srvs_ref) "Cls" with
        | Ok cls => Returned cls
        | Err e => Raised e
        end
    end /\
  cache_of loaded_srvs_ref
    (snd (run test_import test_getattr
              (get_class_for loaded_srvs_ref "pkg/Sub/Cls") initial_state)) =
    match fst (run test_import test_getattr
                   (get_class_for loaded_srvs_ref "pkg/Sub/Cls")
                   initial_state) with
    | Returned cls =>
        <["pkg" +:+ "/" +:+ "Cls" := cls]>
          (<["pkg/Sub/Cls" := cls]>
             (cache_of loaded_srvs_ref (@initial_state nat nat)))
    | _ => cache_of loaded_srvs_ref (@initial_state nat nat)
    end.
Proof.
  apply (uncached_resolution test_import test_getattr loaded_srvs_ref
           "pkg/Sub/Cls" "Sub" "pkg" "Cls" initial_state).
  - apply reachable_init.
  - reflexivity.
  - reflexivity.
  - reflexivity.
Defined.


Lemma kinds_are_separate_witness :
  cache_of loaded_srvs_ref
    (snd (run test_import test_getattr
              (get_class_for loaded_msgs_ref "pkg/Cls") initial_state))
  = cache_of loaded_srvs_ref (@initial_state nat nat) /\
  fst (run test_import test_getattr (get_class_for loaded_msgs_ref "pkg/Cls")
           (set_lock srvs_lock_ref true initial_state))
  = fst (run test_import test_getattr
             (get_class_for loaded_msgs_ref "pkg/Cls") initial_state).
Proof.
  split.
  - apply (proj1 (kinds_are_separate test_import test_getattr loaded_msgs_ref
                    "pkg/Cls" initial_state) loaded_srvs_ref).
    intros E. discriminate E.
  - apply (proj2 (kinds_are_separate test_import test_getattr loaded_msgs_ref
                    "pkg/Cls" initial_state)
             (set_lock srvs_lock_ref true initial_state)).
    + reflexivity.
    + reflexivity.
Defined.

Lemma action_interface_fails_fast_witness :
  run test_import test_getattr (get_service_class "pkg/action/Cls")
      (set_lock srvs_lock_ref true initial_state)
  = (Raised (InvalidActionInterfaceException "Cls"),
     set_lock srvs_lock_ref true initial_state) /\
  InvalidActionInterfaceException "Cls" =
  InvalidActionInterfaceException (List.last (splits "pkg/action/Cls") "").
Proof.
  apply (proj1 (action_interface_fails_fast test_import test_getattr
                  "pkg/action/Cls"
                  (set_lock srvs_lock_ref true initial_state))).
  reflexivity.
Defined.


Lemma two_segment_fallback_repeats_witness :
  exists modname classname,
    _splittype "pkg/Nope" = Ok (modname, classname) /\
    fst (run test_import test_getattr
             (get_class_for loaded_msgs_ref "pkg/Nope") initial_state) =
      match load_result test_import test_getattr modname
                        (default_subname loaded_msgs_ref) classname with
      | Ok cls => Returned cls
      | Err e => Raised e
      end /\
    (forall e,
       load_result test_import test_getattr modname
                   (default_subname loaded_msgs_ref) classname = Err e ->
       imports (calls (snd (run test_import test_getattr
                                (get_class_for loaded_msgs_ref "pkg/Nope")
                                initial_state)))
       = imports (calls (@initial_state nat nat)) + 2).
Proof.
  apply (two_segment_fallback_repeats test_import test_getattr loaded_msgs_ref
           "pkg/Nope" initial_state).
  - apply reachable_init.
  - reflexivity.
  - intros modname classname _. apply lookup_empty.
Defined.


Lemma any_two_calls_witness :
  let call1 : prog nat nat nat := get_class_for loaded_msgs_ref "pkg/Cls" in
  let call2 : prog nat nat nat :=
    get_class_for loaded_srvs_ref "pkg/action/Foo_SendGoal" in
  sn (pool_step test_import test_getattr) ((call1, call2), initial_state) /\
  forall p1 p2 st,
    rtc (pool_step test_import test_getattr)
        ((call1, call2), initial_state) ((p1, p2), st) ->
    (~ (finished p1 /\ finished p2) ->
     exists cfg, pool_step test_import test_getattr ((p1, p2), st) cfg) /\
    (forall e, p1 = Raise e \/ p2 = Raise e -> module_exception e = true) /\
    (finished p1 -> finished p2 -> forall l, lock_of l st = false).
Proof.
  apply (any_two_calls test_import test_getattr loaded_msgs_ref "pkg/Cls"
           loaded_srvs_ref "pkg/action/Foo_SendGoal" initial_state).
  intros []; reflexivity.
Defined.

Lemma sequential_calls_never_block_witness :
  (forall l, lock_of l after_pkg_cls = false) /\
  fst (run test_import test_getattr
           (get_class_for loaded_srvs_ref "pkg/Nope") after_pkg_cls)
  <> Blocked.
Proof.
  apply (sequential_calls_never_block test_import test_getattr loaded_srvs_ref
           "pkg/Nope" after_pkg_cls).
  apply reachable_msg, reachable_init.
Defined.
